(** * PhotoAI Navigator: the metadata stores, the search placeholder and
      the HTTP handlers, embedded in Rocq and checked against the
      specification.

    Source files embedded here:
    - [src/api/main.py]                  (module [Api]: flat [photos] table)
    - [src/database/db.py]               (module [Db]: normalized schema)
    - [src/processing/image_processor.py] (module [Processing])

    Libraries the source calls ([json], SQLite's [LIKE], Python's [str] and
    [set]) are modelled in [Text], [Json] and [Sqlite] from their documented
    behaviour. *)

From Stdlib Require Import NArith ZArith List Ascii String Lia Bool Sorted.
From stdpp Require Import base option list gmap sets.

Local Open Scope N_scope.
#[local] Set Warnings "-clear-no-such-hyp".

(** A Python [str] is a sequence of Unicode code points. *)
Abbreviation str := (list N).

(* ===================================================================== *)
(** ** [Text]: the [str] operations the source uses *)
(* ===================================================================== *)
Module Text.

(** Literals: the UTF-8 bytes of a string of this file, decoded to code
    points (used to write the source's constants). *)
Fixpoint utf8_decode (bs : list N) : str :=
  match bs with
  | [] => []
  | b0 :: r =>
      if b0 <? 128 then b0 :: utf8_decode r
      else if b0 <? 224 then
        match r with
        | b1 :: r' => ((b0 - 192) * 64 + (b1 - 128)) :: utf8_decode r'
        | _ => []
        end
      else if b0 <? 240 then
        match r with
        | b1 :: b2 :: r' =>
            (((b0 - 224) * 64 + (b1 - 128)) * 64 + (b2 - 128)) :: utf8_decode r'
        | _ => []
        end
      else
        match r with
        | b1 :: b2 :: b3 :: r' =>
            ((((b0 - 240) * 64 + (b1 - 128)) * 64 + (b2 - 128)) * 64 + (b3 - 128))
              :: utf8_decode r'
        | _ => []
        end
  end.

Definition lit (s : string) : str :=
  utf8_decode (map N_of_ascii (list_ascii_of_string s)).

(** Unicode scalar values: code points outside the surrogate block
    [U+D800..U+DFFF]; what decoding UTF-8 text yields. *)
Definition scalar (c : N) : Prop := c < 55296 ∨ (57343 < c ∧ c < 1114112).

Definition scalar_str (s : str) : Prop := Forall scalar s.

(** [a == b] on strings. *)
Definition str_eqb (a b : str) : bool := bool_decide (a = b).

(** [needle in hay]: substring test. *)
Fixpoint is_prefix (p s : str) : bool :=
  match p, s with
  | [], _ => true
  | _ :: _, [] => false
  | a :: p', b :: s' => (a =? b) && is_prefix p' s'
  end.

Fixpoint contains (hay needle : str) : bool :=
  is_prefix needle hay ||
  match hay with
  | [] => false
  | _ :: hay' => contains hay' needle
  end.

(** [str.isspace] on one code point (the characters [str.split()] splits
    on). *)
Definition isspace (c : N) : bool :=
  ((9 <=? c) && (c <=? 13)) || ((28 <=? c) && (c <=? 32)) ||
  (c =? 133) || (c =? 160) || (c =? 5760) ||
  ((8192 <=? c) && (c <=? 8202)) || (c =? 8232) || (c =? 8233) ||
  (c =? 8239) || (c =? 8287) || (c =? 12288).

(** [s.split()]: maximal runs of non-whitespace characters, in order.
    [cur] holds the run being read, reversed. *)
Fixpoint split_from (s cur : str) : list str :=
  match s with
  | [] => match cur with [] => [] | _ => [rev cur] end
  | c :: r =>
      if isspace c
      then match cur with
           | [] => split_from r []
           | _ => rev cur :: split_from r []
           end
      else split_from r (c :: cur)
  end.

Definition split (s : str) : list str := split_from s [].

(** [sep.join(parts)]. *)
Fixpoint join (sep : str) (parts : list str) : str :=
  match parts with
  | [] => []
  | [p] => p
  | p :: rest => p ++ sep ++ join sep rest
  end.

(** Comparison of two TEXT values under SQLite's default BINARY collation
    ([memcmp] of the UTF-8 encodings, the shorter string first on a tie);
    UTF-8 keeps the order of code points, so this is the lexicographic
    order on code points. *)
Fixpoint str_leb (a b : str) : bool :=
  match a, b with
  | [], _ => true
  | _ :: _, [] => false
  | x :: a', y :: b' => (x <? y) || ((x =? y) && str_leb a' b')
  end.

(** Python truthiness of an [Optional[str]] / [Optional[List]]: [None] and
    the empty value are falsy. *)
Definition truthy {A} (o : option (list A)) : option (list A) :=
  match o with
  | Some (_ :: _) => o
  | _ => None
  end.

End Text.

(* ===================================================================== *)
(** ** [Json]: [json.dumps] and [json.loads] on lists of strings *)
(* ===================================================================== *)
Module Json.
Import Text.

(** One lowercase hexadecimal digit. *)
Definition hex_digit (d : N) : N := if d <? 10 then 48 + d else 87 + d.

(** ['{0:04x}'.format(n)] for [n < 0x10000]. *)
Definition hex4 (n : N) : str :=
  [hex_digit (n / 4096 mod 16); hex_digit (n / 256 mod 16);
   hex_digit (n / 16 mod 16); hex_digit (n mod 16)].

(** [json.encoder.py_encode_basestring_ascii], one character
    ([ensure_ascii=True], the default that [json.dumps(tags)] uses):
    the short escapes, printable ASCII unchanged, everything else as
    [\uXXXX], code points above the BMP as a surrogate pair. *)
Definition escape_char (c : N) : str :=
  if c =? 34 then [92; 34]
  else if c =? 92 then [92; 92]
  else if c =? 10 then [92; 110]
  else if c =? 13 then [92; 114]
  else if c =? 9 then [92; 116]
  else if c =? 8 then [92; 98]
  else if c =? 12 then [92; 102]
  else if (32 <=? c) && (c <=? 126) then [c]
  else if c <? 65536 then 92 :: 117 :: hex4 c
  else
    let n := c - 65536 in
    let s1 := N.lor 55296 (N.land (N.shiftr n 10) 1023) in
    let s2 := N.lor 56320 (N.land n 1023) in
    (92 :: 117 :: hex4 s1) ++ (92 :: 117 :: hex4 s2).

Definition escape (s : str) : str := flat_map escape_char s.

Definition encode_basestring_ascii (s : str) : str := 34 :: escape s ++ [34].

(** [json.dumps(l)] for a list of strings: ['[' + ', '.join(items) + ']']. *)
Definition dumps (l : list str) : str :=
  91 :: join [44; 32] (map encode_basestring_ascii l) ++ [93].

(** Decoding. *)
Definition hex_val (c : N) : option N :=
  if (48 <=? c) && (c <=? 57) then Some (c - 48)
  else if (97 <=? c) && (c <=? 102) then Some (c - 87)
  else if (65 <=? c) && (c <=? 70) then Some (c - 55)
  else None.

(** The four hexadecimal digits after [\u]. *)
Definition decode_uXXXX (a b c d : N) : option N :=
  match hex_val a, hex_val b, hex_val c, hex_val d with
  | Some x, Some y, Some z, Some w => Some (((x * 16 + y) * 16 + z) * 16 + w)
  | _, _, _, _ => None
  end.

(** The [BACKSLASH] table of [json.decoder]. *)
Definition backslash (e : N) : option N :=
  if e =? 34 then Some 34
  else if e =? 92 then Some 92
  else if e =? 47 then Some 47
  else if e =? 98 then Some 8
  else if e =? 102 then Some 12
  else if e =? 110 then Some 10
  else if e =? 114 then Some 13
  else if e =? 116 then Some 9
  else None.

Definition is_high_surrogate (u : N) : bool := (55296 <=? u) && (u <=? 56319).
Definition is_low_surrogate (u : N) : bool := (56320 <=? u) && (u <=? 57343).

Definition join_surrogates (u u2 : N) : N :=
  65536 + N.lor (N.shiftl (u - 55296) 10) (u2 - 56320).

(** [scanstring] in strict mode, started after the opening quote: the
    decoded string and the text after the closing quote, or [None] where
    the decoder raises [JSONDecodeError].  [acc] is the decoded prefix,
    reversed. *)
Fixpoint scanstring (s : str) (acc : str) {struct s} : option (str * str) :=
  match s with
  | [] => None
  | c :: r =>
      if c =? 34 then Some (rev acc, r)
      else if c =? 92 then
        match r with
        | [] => None
        | e :: r1 =>
            if e =? 117 then
              match r1 with
              | h1 :: h2 :: h3 :: h4 :: r2 =>
                  match decode_uXXXX h1 h2 h3 h4 with
                  | None => None
                  | Some u =>
                      if is_high_surrogate u then
                        match r2 with
                        | b :: v :: k1 :: k2 :: k3 :: k4 :: r3 =>
                            if (b =? 92) && (v =? 117) then
                              match decode_uXXXX k1 k2 k3 k4 with
                              | None => None
                              | Some u2 =>
                                  if is_low_surrogate u2
                                  then scanstring r3 (join_surrogates u u2 :: acc)
                                  else scanstring r2 (u :: acc)
                              end
                            else scanstring r2 (u :: acc)
                        | _ => scanstring r2 (u :: acc)
                        end
                      else scanstring r2 (u :: acc)
                  end
              | _ => None
              end
            else
              match backslash e with
              | Some ch => scanstring r1 (ch :: acc)
              | None => None
              end
        end
      else if c <? 32 then None
      else scanstring r (c :: acc)
  end.

(** JSON whitespace: space, tab, line feed, carriage return. *)
Definition is_ws (c : N) : bool :=
  (c =? 32) || (c =? 9) || (c =? 10) || (c =? 13).

Fixpoint skip_ws (s : str) : str :=
  match s with
  | c :: r => if is_ws c then skip_ws r else s
  | [] => []
  end.

(** The loop of [JSONArray], entered at the first element: one string,
    then [,] and another element, or [\]].  Only string elements are
    modelled: on any other value the result is [None].  [fuel] bounds the
    number of elements. *)
Fixpoint array_items (fuel : nat) (s : str) (acc : list str)
  : option (list str * str) :=
  match fuel with
  | O => None
  | S fuel' =>
      match s with
      | c :: r =>
          if c =? 34 then
            match scanstring r [] with
            | None => None
            | Some (v, rest) =>
                match skip_ws rest with
                | d :: rest' =>
                    if d =? 93 then Some (rev (v :: acc), rest')
                    else if d =? 44
                    then array_items fuel' (skip_ws rest') (v :: acc)
                    else None
                | [] => None
                end
            end
          else None
      | [] => None
      end
  end.

(** [json.loads(text)] on the JSON the store writes, an array of
    strings: [Some l] when [text] is such an array, [None] otherwise
    (a [JSONDecodeError], or a JSON value that is not a list of
    strings). *)
Definition loads (text : str) : option (list str) :=
  match skip_ws text with
  | c :: r =>
      if c =? 91 then
        match skip_ws r with
        | d :: r' =>
            if d =? 93
            then match skip_ws r' with [] => Some [] | _ => None end
            else
              match array_items (length text) (d :: r') [] with
              | Some (l, rest) =>
                  match skip_ws rest with [] => Some l | _ => None end
              | None => None
              end
        | [] => None
        end
      else None
  | [] => None
  end.

End Json.

(* ===================================================================== *)
(** ** [Sqlite]: the SQL operators the queries use *)
(* ===================================================================== *)
Module Sqlite.
Import Text.

(** Case folding of [LIKE]: ASCII letters only (SQLite's default; the
    source never sets [PRAGMA case_sensitive_like]). *)
Definition tolower (c : N) : N :=
  if (65 <=? c) && (c <=? 90) then c + 32 else c.

(** SQLite reads the two operands of [LIKE] as C strings: each ends at
    its first U+0000. *)
Fixpoint c_string (s : str) : str :=
  match s with
  | [] => []
  | c :: r => if c =? 0 then [] else c :: c_string r
  end.

(** [patternCompare] without an ESCAPE clause: [%] (37) matches any run
    of characters, [_] (95) any single character, every other character
    matches itself up to ASCII case. *)
Fixpoint pattern_compare (pat s : str) {struct pat} : bool :=
  match pat with
  | [] => match s with [] => true | _ => false end
  | p :: pat' =>
      if p =? 37 then
        (fix any_suffix (s : str) : bool :=
           pattern_compare pat' s ||
           match s with
           | [] => false
           | _ :: s' => any_suffix s'
           end) s
      else
        match s with
        | [] => false
        | c :: s' =>
            ((p =? 95) || (tolower p =? tolower c)) && pattern_compare pat' s'
        end
  end.

(** [s LIKE pat] on two TEXT values. *)
Definition like (pat s : str) : bool :=
  pattern_compare (c_string pat) (c_string s).

(** The number of bytes of the UTF-8 encoding of a string
    ([sqlite3_value_bytes] of a bound [str]). *)
Definition utf8_length (s : str) : N :=
  fold_right (fun c n =>
    (if c <? 128 then 1 else if c <? 2048 then 2
     else if c <? 65536 then 3 else 4) + n) 0 s.

(** Limits of the engine (the defaults of SQLite, which the source does
    not change). *)
Definition SQLITE_MAX_LIKE_PATTERN_LENGTH : N := 50000.
Definition SQLITE_MAX_EXPR_DEPTH : N := 1000.

(** One [AND <column> <op> ?] of a WHERE clause with its bound
    parameter. *)
Inductive clause (column : Type) : Type :=
  | Ge (c : column) (p : str)       (* column >= ? *)
  | Le (c : column) (p : str)       (* column <= ? *)
  | Like (c : column) (p : str).    (* column LIKE ? *)
Arguments Ge {column}. Arguments Le {column}. Arguments Like {column}.

(** A comparison with NULL is NULL, which a WHERE clause does not
    accept. *)
Definition eval_clause {column row : Type} (value : column → row → option str)
  (cl : clause column) (r : row) : bool :=
  match cl with
  | Ge c p => match value c r with Some v => str_leb p v | None => false end
  | Le c p => match value c r with Some v => str_leb v p | None => false end
  | Like c p => match value c r with Some v => like p v | None => false end
  end.

(** The rows that satisfy every term of
    [SELECT ... FROM table WHERE 1=1 AND c1 AND c2 ...], in table
    order. *)
Definition select_where {column row : Type} (value : column → row → option str)
  (query : list (clause column)) (table : list row) : list row :=
  List.filter (fun r => forallb (fun cl => eval_clause value cl r) query) table.

(** A [LIKE] whose pattern is longer than
    [SQLITE_MAX_LIKE_PATTERN_LENGTH] bytes fails when it is evaluated
    ("LIKE or GLOB pattern too complex"), whatever the column holds. *)
Definition too_complex {column : Type} (cl : clause column) : bool :=
  match cl with
  | Like _ p => SQLITE_MAX_LIKE_PATTERN_LENGTH <? utf8_length p
  | _ => false
  end.

(** The WHERE clause on one row: the terms are tested from left to right
    and the first that is not true ends the test; [None] is a term that
    failed. *)
Fixpoint eval_where {column row : Type} (value : column → row → option str)
  (query : list (clause column)) (r : row) : option bool :=
  match query with
  | [] => Some true
  | cl :: q =>
      if too_complex cl then None
      else if eval_clause value cl r then eval_where value q r
      else Some false
  end.

(** [cursor.execute(query, params)] then [cursor.fetchall()]; [None] is
    [sqlite3.OperationalError].  The statement is refused when its
    expression tree is deeper than [SQLITE_MAX_EXPR_DEPTH] ([1=1] has
    depth 2 and each [AND] adds one), and the call fails when a term
    fails on some row. *)
Definition fetchall {column row : Type} (value : column → row → option str)
  (query : list (clause column)) (table : list row) : option (list row) :=
  if SQLITE_MAX_EXPR_DEPTH <? N.of_nat (length query) + 2 then None
  else if existsb (fun r => bool_decide (eval_where value query r = None)) table
  then None
  else Some (select_where value query table).

(** An INTEGER: a signed 64-bit integer.  Binding a Python [int] outside
    this range raises [OverflowError] before the statement runs; the
    statements with an id parameter are modelled for ids in the range. *)
Definition int64 (z : Z) : Prop := (- 2 ^ 63 ≤ z < 2 ^ 63)%Z.

(** A binary64 value, as its 64-bit pattern, is a NaN. *)
Definition is_nan (x : N) : bool :=
  9218868437227405312 <? x mod 9223372036854775808.

(** What a REAL column returns for a bound Python [float]: a NaN is
    stored as NULL; a value without fractional part is kept as an
    integer, which loses the sign of [-0.0]; every other value is returned
    as it was given. *)
Definition store_real (x : N) : option N :=
  if is_nan x then None
  else if x =? 9223372036854775808 then Some 0
  else Some x.

(** The rowid SQLite gives a new row of a table whose rowids are [ids]:
    one more than the largest, 1 in an empty table (ids stay far below
    [2^63 - 1], where SQLite would pick at random). *)
Definition next_rowid (ids : list Z) : Z := (fold_right Z.max 0 ids + 1)%Z.

(** [ORDER BY key] on a TEXT column (BINARY collation, ascending): each
    row is placed before the first row whose key is not smaller. *)
Fixpoint insert_by {A : Type} (key : A → str) (x : A) (l : list A) : list A :=
  match l with
  | [] => [x]
  | y :: l' =>
      if str_leb (key x) (key y) then x :: l else y :: insert_by key x l'
  end.

Definition order_by {A : Type} (key : A → str) (l : list A) : list A :=
  fold_right (insert_by key) [] l.

End Sqlite.

(* ===================================================================== *)
(** ** Exceptions and results *)
(* ===================================================================== *)

(** [detail] of the [HTTPException]s the handlers raise. *)
Inductive detail : Set :=
  | photo_not_found              (* "Фотографію не знайдено." *)
  | unsupported_cloud_service.   (* "Непідтримуваний хмарний сервіс. ..." *)

Inductive exn : Set :=
  | JSONDecodeError
  | ValidationError
  | OperationalError
  | HTTPException (status_code : Z) (d : detail).

Inductive result (A : Type) : Type :=
  | Ok (a : A)
  | Raise (e : exn).
Arguments Ok {A}. Arguments Raise {A}.

#[global] Instance result_ret : MRet result := fun A a => Ok a.

#[global] Instance result_bind : MBind result := fun A B k m =>
  match m with
  | Ok a => k a
  | Raise e => Raise e
  end.

(** [[f(x) for x in l]] where [f] may raise: stops at the first
    exception. *)
Fixpoint map_result {A B} (f : A → result B) (l : list A) : result (list B) :=
  match l with
  | [] => Ok []
  | x :: l' => y ← f x; ys ← map_result f l'; Ok (y :: ys)
  end.

(* ===================================================================== *)
(** ** [Api]: [src/api/main.py], the flat [photos] table and its handlers *)
(* ===================================================================== *)
Module Api.
Import Text Json Sqlite.

(** A row of [photos]: [id INTEGER PRIMARY KEY AUTOINCREMENT],
    [path TEXT NOT NULL UNIQUE], [filename TEXT NOT NULL], and four
    nullable TEXT columns; [tags] holds JSON text. *)
Record row : Type := mk_row {
  row_id : Z;
  row_path : str;
  row_filename : str;
  row_date_taken : option str;
  row_location : option str;
  row_camera_model : option str;
  row_tags : option str
}.

(** The database file: the rows of [photos], in rowid order. *)
Abbreviation table := (list row).

(** [init_db]: [CREATE TABLE IF NOT EXISTS photos]; [None] is a database
    file without the table. *)
Definition init_db (file : option table) : table :=
  match file with
  | Some t => t
  | None => []
  end.

(** [INSERT INTO photos (path, filename, date_taken, location,
    camera_model, tags) VALUES (?, ?, ?, ?, ?, ?)]; [None] is
    [sqlite3.IntegrityError] (the path is already stored).  No row is ever
    deleted from [photos], so AUTOINCREMENT gives the largest id plus
    one. *)
Definition insert_photo (t : table)
  (p : str * str * str * str * str * str) : option table :=
  let '(path, filename, date_taken, location, camera_model, tags) := p in
  if existsb (fun r => str_eqb (row_path r) path) t then None
  else Some (t ++ [mk_row (next_rowid (map row_id t)) path filename
                     (Some date_taken) (Some location) (Some camera_model)
                     (Some tags)]).

Definition sample_photos : list (str * str * str * str * str * list str) :=
  [ (lit "C:/photos/vacation/beach.jpg", lit "beach.jpg",
     lit "2023-07-15 10:30:00", lit "Пляж", lit "Canon EOS R5",
     [lit "відпустка"; lit "пляж"; lit "літо"]);
    (lit "C:/photos/city/skyline.png", lit "skyline.png",
     lit "2023-01-20 18:00:00", lit "Центр міста", lit "Sony Alpha 7 III",
     [lit "місто"; lit "ніч"; lit "архітектура"]);
    (lit "C:/photos/nature/mountain.jpeg", lit "mountain.jpeg",
     lit "2022-09-01 08:00:00", lit "Гори", lit "Nikon D850",
     [lit "природа"; lit "похід"; lit "пейзаж"]);
    (lit "C:/photos/family/birthday.jpg", lit "birthday.jpg",
     lit "2023-03-10 14:00:00", lit "Дім", lit "iPhone 13 Pro",
     [lit "сім'я"; lit "день народження"; lit "свято"]) ].

(** [db_add_sample_data]: each sample is inserted with
    [json.dumps(tags)]; an [IntegrityError] is passed over. *)
Definition db_add_sample_data (t : table) : table :=
  fold_left
    (fun t '(path, filename, date_taken, location, camera_model, tags) =>
       match insert_photo t (path, filename, date_taken, location,
                             camera_model, dumps tags) with
       | Some t' => t'
       | None => t
       end)
    sample_photos t.

(** The pydantic models. *)
Record Photo : Type := mk_Photo {
  photo_id : Z;
  photo_path : str;
  photo_filename : str;
  photo_date_taken : str;
  photo_location : option str;
  photo_camera_model : option str;
  photo_tags : list str
}.

Record PhotoFilter : Type := mk_PhotoFilter {
  date_from : option str;
  date_to : option str;
  filter_tags : option (list str);
  filter_location : option str;
  filter_camera_model : option str
}.

Record TagUpdate : Type := mk_TagUpdate {
  add_tags : option (list str);
  remove_tags : option (list str)
}.

Record CloudSyncRequest : Type := mk_CloudSyncRequest { service : str }.

(** Columns a WHERE clause of [db_get_photos] mentions. *)
Inductive column : Set := c_date_taken | c_location | c_camera_model | c_tags.

Definition value (c : column) (r : row) : option str :=
  match c with
  | c_date_taken => row_date_taken r
  | c_location => row_location r
  | c_camera_model => row_camera_model r
  | c_tags => row_tags r
  end.

(** [f"%{x}%"]. *)
Definition percent (x : str) : str := 37 :: x ++ [37].

(** [f"%\"{tag}\"%"]. *)
Definition tag_pattern (tag : str) : str := 37 :: 34 :: tag ++ [34; 37].

(** The query [db_get_photos] builds: one clause per filter that is
    set (and not empty), one [tags LIKE ?] per requested tag. *)
Definition build_query (filters : PhotoFilter) : list (clause column) :=
  match truthy (date_from filters) with
  | Some d => [Ge c_date_taken d] | None => [] end ++
  match truthy (date_to filters) with
  | Some d => [Le c_date_taken d] | None => [] end ++
  match truthy (filter_location filters) with
  | Some l => [Like c_location (percent l)] | None => [] end ++
  match truthy (filter_camera_model filters) with
  | Some m => [Like c_camera_model (percent m)] | None => [] end ++
  match truthy (filter_tags filters) with
  | Some ts => map (fun tag => Like c_tags (tag_pattern tag)) ts
  | None => []
  end.

(** [json.loads(row['tags']) if row['tags'] else []]. *)
Definition row_tag_list (r : row) : result (list str) :=
  match truthy (row_tags r) with
  | Some text =>
      match loads text with
      | Some l => Ok l
      | None => Raise JSONDecodeError
      end
  | None => Ok []
  end.

(** The body of the loop over the fetched rows: decode the tags, build
    the [Photo] ([date_taken: str] rejects NULL). *)
Definition photo_of_row (r : row) : result Photo :=
  tags ← row_tag_list r;
  match row_date_taken r with
  | Some d =>
      Ok (mk_Photo (row_id r) (row_path r) (row_filename r) d
            (row_location r) (row_camera_model r) tags)
  | None => Raise ValidationError
  end.

Definition db_get_photos (t : table) (filters : PhotoFilter)
  : result (list Photo) :=
  match fetchall value (build_query filters) t with
  | Some rows => map_result photo_of_row rows
  | None => Raise OperationalError
  end.

Section TagUpdates.

(** [list(current_tags)]: the order in which Python iterates over a set
    is not specified; [set_to_list] stands for it. *)
Variable set_to_list : gset str → list str.

(** [db_update_photo_tags]: the result (or the exception raised) and the
    table afterwards, for a [photo_id] that is an INTEGER ([int64]). *)
Definition db_update_photo_tags (t : table) (photo_id : Z)
  (add_tags remove_tags : option (list str)) : result bool * table :=
  match List.find (fun r => Z.eqb (row_id r) photo_id) t with
  | None => (Ok false, t)
  | Some r =>
      match row_tag_list r with
      | Raise e => (Raise e, t)
      | Ok old =>
          let current_tags : gset str := list_to_set old in
          let current_tags :=
            match truthy add_tags with
            | Some a => current_tags ∪ list_to_set a
            | None => current_tags
            end in
          let current_tags :=
            match truthy remove_tags with
            | Some d => current_tags ∖ list_to_set d
            | None => current_tags
            end in
          let new_tags_json := dumps (set_to_list current_tags) in
          (Ok true,
           map (fun r => if Z.eqb (row_id r) photo_id
                         then mk_row (row_id r) (row_path r) (row_filename r)
                                (row_date_taken r) (row_location r)
                                (row_camera_model r) (Some new_tags_json)
                         else r) t)
      end
  end.

(** Bodies of the success responses. *)
Inductive message : Set :=
  | welcome
  | tags_updated (photo_id : Z)
  | tags_removed (photo_id : Z)
  | google_drive_sync_initiated
  | dropbox_sync_initiated.

(** [PUT /photos/{photo_id}/tags]. *)
Definition update_photo_tags (t : table) (photo_id : Z) (tag_update : TagUpdate)
  : result message * table :=
  match db_update_photo_tags t photo_id (add_tags tag_update)
          (remove_tags tag_update) with
  | (Raise e, t') => (Raise e, t')
  | (Ok success, t') =>
      if negb success
      then (Raise (HTTPException 404 photo_not_found), t')
      else (Ok (tags_updated photo_id), t')
  end.

(** [DELETE /photos/{photo_id}/tags]. *)
Definition delete_photo_tags (t : table) (photo_id : Z)
  (tags_to_delete : list str) : result message * table :=
  match db_update_photo_tags t photo_id None (Some tags_to_delete) with
  | (Raise e, t') => (Raise e, t')
  | (Ok success, t') =>
      if negb success
      then (Raise (HTTPException 404 photo_not_found), t')
      else (Ok (tags_removed photo_id), t')
  end.

End TagUpdates.

(** [startup_event]: [init_db()] then [db_add_sample_data()]. *)
Definition startup_event (file : option table) : table :=
  db_add_sample_data (init_db file).

(** [GET /photos]. *)
Definition get_photos (t : table)
  (date_from date_to : option str) (tags : option (list str))
  (location camera_model : option str) : result (list Photo) :=
  db_get_photos t (mk_PhotoFilter date_from date_to tags location camera_model).

(** The coroutines a sync request can schedule. *)
Inductive task : Set := sync_with_google_drive | sync_with_dropbox.

(** [POST /cloud/sync]; [background_tasks] is the queue
    [BackgroundTasks.add_task] appends to. *)
Definition initiate_cloud_sync (sync_request : CloudSyncRequest)
  (background_tasks : list task) : result message * list task :=
  if str_eqb (service sync_request) (lit "google_drive") then
    (Ok google_drive_sync_initiated, background_tasks ++ [sync_with_google_drive])
  else if str_eqb (service sync_request) (lit "dropbox") then
    (Ok dropbox_sync_initiated, background_tasks ++ [sync_with_dropbox])
  else (Raise (HTTPException 400 unsupported_cloud_service), background_tasks).

End Api.

(* ===================================================================== *)
(** ** [Db]: [src/database/db.py], the normalized schema *)
(* ===================================================================== *)
Module Db.
Import Text Sqlite.

(** A Python [float] or a REAL value: the IEEE-754 binary64 value, as
    its 64-bit pattern (the code computes nothing with it). *)
Abbreviation real := N.

(** The REAL column of a row inserted with an [Optional[float]]
    parameter ([None] is bound as NULL). *)
Definition stored_real (x : option real) : option real :=
  match x with
  | Some x => store_real x
  | None => None
  end.

(** Rows of [images], [tags] and [image_tags]. *)
Record image : Type := mk_image {
  image_id : Z;
  file_path : str;
  capture_date : option str;
  camera_model : option str;
  latitude : option real;
  longitude : option real
}.

Record tag : Type := mk_tag { tag_id : Z; name : str }.

(** A [DatabaseManager]: the connection with its tables.  [foreign_keys]
    is the connection's [PRAGMA foreign_keys]. *)
Record DatabaseManager : Type := mk_db {
  foreign_keys : bool;
  images : list image;
  tags : list tag;
  image_tags : list (Z * Z)
}.

(** [__init__]: [_connect] then [_create_tables] ([CREATE TABLE IF NOT
    EXISTS]), on a database file holding the given tables ([None]: a new
    file).  [sqlite3.connect] opens a connection with foreign-key
    enforcement off, and no method of the class executes
    [PRAGMA foreign_keys = ON]. *)
Definition init (file : option (list image * list tag * list (Z * Z)))
  : DatabaseManager :=
  match file with
  | Some (i, t, it) => mk_db false i t it
  | None => mk_db false [] [] []
  end.

(** [add_image]: the INSERT fails with [IntegrityError] when [file_path]
    is already stored (UNIQUE); the handler turns that into [None].  The
    two REAL columns hold what SQLite keeps of the floats given. *)
Definition add_image (db : DatabaseManager) (file_path : str)
  (capture_date : str) (camera_model : option str)
  (latitude longitude : option real) : option Z * DatabaseManager :=
  if existsb (fun i => str_eqb (Db.file_path i) file_path) (images db)
  then (None, db)
  else
    let lastrowid := next_rowid (map image_id (images db)) in
    (Some lastrowid,
     mk_db (foreign_keys db)
       (images db ++ [mk_image lastrowid file_path (Some capture_date)
                        camera_model (stored_real latitude)
                        (stored_real longitude)])
       (tags db) (image_tags db)).

(** [add_tag]: a new tag, or on [IntegrityError] (the name exists) the id
    of the stored one. *)
Definition add_tag (db : DatabaseManager) (tag_name : str)
  : option Z * DatabaseManager :=
  match List.find (fun t => str_eqb (name t) tag_name) (tags db) with
  | Some t => (Some (tag_id t), db)
  | None =>
      let lastrowid := next_rowid (map tag_id (tags db)) in
      (Some lastrowid,
       mk_db (foreign_keys db) (images db)
         (tags db ++ [mk_tag lastrowid tag_name]) (image_tags db))
  end.

(** [link_tag_to_image]: [INSERT OR IGNORE INTO image_tags], for ids
    that are INTEGERs ([int64]).  With foreign keys enforced, a missing
    image or tag is an [IntegrityError], caught and answered [False]. *)
Definition link_tag_to_image (db : DatabaseManager) (image_id tag_id : Z)
  : bool * DatabaseManager :=
  if foreign_keys db &&
     negb (existsb (fun i => Z.eqb (Db.image_id i) image_id) (images db) &&
           existsb (fun t => Z.eqb (Db.tag_id t) tag_id) (tags db))
  then (false, db)
  else if existsb (fun it => Z.eqb it.1 image_id && Z.eqb it.2 tag_id)
            (image_tags db)
  then (true, db)
  else (true, mk_db (foreign_keys db) (images db) (tags db)
                (image_tags db ++ [(image_id, tag_id)])).

(** [delete_tag]: [DELETE FROM tags WHERE id = ?], for a [tag_id] that
    is an INTEGER ([int64]); the result is [rowcount > 0].
    [ON DELETE CASCADE] removes the [image_tags] rows of a deleted tag
    only on a connection that enforces foreign keys. *)
Definition delete_tag (db : DatabaseManager) (tag_id : Z)
  : bool * DatabaseManager :=
  let kept := List.filter (fun t => negb (Z.eqb (Db.tag_id t) tag_id)) (tags db) in
  let rowcount := (length (tags db) - length kept)%nat in
  let links :=
    if foreign_keys db && (0 <? rowcount)%nat
    then List.filter (fun it => negb (Z.eqb it.2 tag_id)) (image_tags db)
    else image_tags db in
  ((0 <? rowcount)%nat, mk_db (foreign_keys db) (images db) kept links).

(** The rows of
    [images i JOIN image_tags it ON i.id = it.image_id
              JOIN tags t ON it.tag_id = t.id WHERE t.name IN (...)]. *)
Definition joined (db : DatabaseManager) (tag_names : list str)
  : list (image * tag) :=
  flat_map (fun i =>
    flat_map (fun it =>
      if Z.eqb (image_id i) it.1 then
        flat_map (fun t =>
          if Z.eqb it.2 (tag_id t) && bool_decide (name t ∈ tag_names)
          then [(i, t)] else []) (tags db)
      else []) (image_tags db)) (images db).

(** [get_images_by_tags]: the joined rows are grouped by [i.id]; a group
    is kept when [COUNT(DISTINCT t.id)] equals [len(tag_names)] and
    yields the image of its rows. *)
Definition get_images_by_tags (db : DatabaseManager) (tag_names : list str)
  : list image :=
  match tag_names with
  | [] => []
  | _ =>
      let rows := joined db tag_names in
      flat_map (fun g =>
        let group := List.filter (fun r => Z.eqb (image_id r.1) g) rows in
        if (length (remove_dups (map (fun r => tag_id r.2) group))
              =? length tag_names)%nat
        then match group with r :: _ => [r.1] | [] => [] end
        else [])
        (remove_dups (map (fun r => image_id r.1) rows))
  end.

(** Columns a WHERE clause of [get_images_by_metadata] mentions. *)
Inductive column : Set := c_capture_date | c_camera_model.

Definition value (c : column) (i : image) : option str :=
  match c with
  | c_capture_date => capture_date i
  | c_camera_model => camera_model i
  end.

Definition build_query (start_date end_date camera_model : option str)
  : list (clause column) :=
  match truthy start_date with
  | Some d => [Ge c_capture_date d] | None => [] end ++
  match truthy end_date with
  | Some d => [Le c_capture_date d] | None => [] end ++
  match truthy camera_model with
  | Some m => [Like c_camera_model (37 :: m ++ [37])] | None => [] end.

(** [get_images_by_metadata]: a [sqlite3.Error] is caught and answered
    with the empty list. *)
Definition get_images_by_metadata (db : DatabaseManager)
  (start_date end_date camera_model : option str) : list image :=
  match fetchall value (build_query start_date end_date camera_model)
          (images db) with
  | Some rows => rows
  | None => []
  end.

(** [get_all_tags]: [SELECT id, name FROM tags ORDER BY name]. *)
Definition get_all_tags (db : DatabaseManager) : list tag :=
  order_by name (tags db).

(** [get_image_by_id]: [fetchone()] of the rows with that id (an
    INTEGER, [int64]). *)
Definition get_image_by_id (db : DatabaseManager) (image_id : Z)
  : option image :=
  List.find (fun i => Z.eqb (Db.image_id i) image_id) (images db).

(** [get_tags_for_image]: the rows of
    [tags t JOIN image_tags it ON t.id = it.tag_id WHERE it.image_id = ?]
    (an INTEGER, [int64]), ordered by name. *)
Definition get_tags_for_image (db : DatabaseManager) (image_id : Z)
  : list tag :=
  order_by name
    (flat_map (fun t =>
       flat_map (fun it =>
         if Z.eqb (tag_id t) it.2 && Z.eqb it.1 image_id then [t] else [])
         (image_tags db)) (tags db)).

End Db.

(* ===================================================================== *)
(** ** [Processing]: [src/processing/image_processor.py] *)
(* ===================================================================== *)
Module Processing.
Import Text.

(** One entry of [image_metadata_list]: a dict read with [.get], so
    each key may be missing. *)
Record metadata : Type := mk_metadata {
  path : option str;
  tags : option (list str);
  ocr_text : option str
}.

Section Search.

(** [str.lower]; Unicode lowercasing is taken as given. *)
Variable lower : str → str.

(** [any(query_word in tag.lower()
         for query_word in query_lower.split() for tag in tags)]. *)
Definition found_in_tags (query_lower : str) (tags : list str) : bool :=
  existsb (fun query_word =>
    existsb (fun tag => contains (lower tag) query_word) tags)
    (split query_lower).

(** [query_lower in ocr_text.lower()]. *)
Definition found_in_ocr (query_lower ocr_text : str) : bool :=
  contains (lower ocr_text) query_lower.

(** [semantic_search_placeholder]: the loop appends the path of each
    matching entry ([None] where the entry has no ['path']). *)
Definition semantic_search_placeholder (query : str)
  (image_metadata_list : list metadata) : list (option str) :=
  let query_lower := lower query in
  fold_left
    (fun matching_images m =>
       let image_path := path m in
       let tags := default [] (tags m) in
       let ocr_text := default [] (ocr_text m) in
       if found_in_tags query_lower tags || found_in_ocr query_lower ocr_text
       then matching_images ++ [image_path]
       else matching_images)
    image_metadata_list [].

End Search.

End Processing.

Import Text Json Sqlite.

(** [str.lower] on ASCII text (the only letters the concrete examples
    below use). *)
Definition ascii_lower (s : str) : str := map tolower s.

(** [a] occurs in [b] as a contiguous substring. *)
Definition substring (a b : str) : Prop := ∃ pre post, b = pre ++ a ++ post.

(** The search criterion as the specification words it: every token of
    the query occurs in some tag, or the whole query occurs in the
    extracted text (both after lowercasing). *)
Definition every_token_matches (lower : str → str) (query : str)
  (m : Processing.metadata) : Prop :=
  (∀ w, w ∈ split (lower query) →
        ∃ tag, tag ∈ default [] (Processing.tags m) ∧ substring w (lower tag))
  ∨ substring (lower query) (lower (default [] (Processing.ocr_text m))).

(** The criterion the loop applies: some token occurs in some tag. *)
Definition some_token_matches (lower : str → str) (query : str)
  (m : Processing.metadata) : Prop :=
  (∃ w tag, w ∈ split (lower query) ∧ tag ∈ default [] (Processing.tags m)
            ∧ substring w (lower tag))
  ∨ substring (lower query) (lower (default [] (Processing.ocr_text m))).

(** [selected P l l']: [l'] lists, in order, exactly the elements of
    [l] that satisfy [P]. *)
Inductive selected {A : Type} (P : A → Prop) : list A → list A → Prop :=
  | selected_nil : selected P [] []
  | selected_keep x l l' : P x → selected P l l' → selected P (x :: l) (x :: l')
  | selected_skip x l l' : ¬ P x → selected P l l' → selected P (x :: l) l'.

(** Two rows of [photos] that agree on every column but [tags]. *)
Definition same_but_tags (r r' : Api.row) : Prop :=
  Api.row_id r' = Api.row_id r ∧
  Api.row_path r' = Api.row_path r ∧
  Api.row_filename r' = Api.row_filename r ∧
  Api.row_date_taken r' = Api.row_date_taken r ∧
  Api.row_location r' = Api.row_location r ∧
  Api.row_camera_model r' = Api.row_camera_model r.

(** A manager on a new file after
    [add_image('/path/to/img1.jpg', ...)], [add_tag('New York')] and
    [link_tag_to_image(1, 1)]. *)
Definition one_tagged_image : Db.DatabaseManager :=
  let db := Db.init None in
  let db := (Db.add_image db (lit "/path/to/img1.jpg")
               (lit "2023-01-15 10:00:00") (Some (lit "Canon EOS R5"))
               None None).2 in
  let db := (Db.add_tag db (lit "New York")).2 in
  (Db.link_tag_to_image db 1 1).2.

(** A filter value without the [LIKE] wildcards [%] and [_]. *)
Definition wildcard_free (x : str) : Prop := Forall (fun c => c ≠ 37 ∧ c ≠ 95) x.

(** [a] occurs in [b] up to the case of ASCII letters. *)
Definition substring_nocase (a b : str) : Prop :=
  ∃ pre mid post, b = pre ++ mid ++ post ∧ map tolower mid = map tolower a.

(** [a] ends [b] up to the case of ASCII letters. *)
Definition suffix_nocase (a b : str) : Prop :=
  ∃ pre mid, b = pre ++ mid ∧ map tolower mid = map tolower a.

(** A query within the limits of the engine: at most 998 terms after
    [1=1], and no [LIKE] pattern longer than 50000 bytes. *)
Definition within_limits {column : Type} (query : list (clause column)) : Prop :=
  N.of_nat (length query) + 2 ≤ SQLITE_MAX_EXPR_DEPTH
  ∧ Forall (fun cl => too_complex cl = false) query.

(** What the WHERE clause of [db_get_photos] asks of a row: every
    filter that is set holds of the (non-NULL) column. *)
Definition photo_filter_holds (f : Api.PhotoFilter) (r : Api.row) : Prop :=
  (∀ d, truthy (Api.date_from f) = Some d →
        ∃ v, Api.row_date_taken r = Some v ∧ str_leb d v = true) ∧
  (∀ d, truthy (Api.date_to f) = Some d →
        ∃ v, Api.row_date_taken r = Some v ∧ str_leb v d = true) ∧
  (∀ x, truthy (Api.filter_location f) = Some x →
        ∃ v, Api.row_location r = Some v ∧ like (Api.percent x) v = true) ∧
  (∀ x, truthy (Api.filter_camera_model f) = Some x →
        ∃ v, Api.row_camera_model r = Some v ∧ like (Api.percent x) v = true) ∧
  (∀ ts tag, truthy (Api.filter_tags f) = Some ts → tag ∈ ts →
        ∃ v, Api.row_tags r = Some v ∧ like (Api.tag_pattern tag) v = true).

(** The same for [get_images_by_metadata]. *)
Definition metadata_filter_holds (start_date end_date camera_model : option str)
  (i : Db.image) : Prop :=
  (∀ d, truthy start_date = Some d →
        ∃ v, Db.capture_date i = Some v ∧ str_leb d v = true) ∧
  (∀ d, truthy end_date = Some d →
        ∃ v, Db.capture_date i = Some v ∧ str_leb v d = true) ∧
  (∀ x, truthy camera_model = Some x →
        ∃ v, Db.camera_model i = Some v ∧ like (Api.percent x) v = true).

#[global] Instance scalar_dec c : Decision (scalar c).
Proof. unfold scalar. apply _. Defined.

#[global] Instance scalar_str_dec s : Decision (scalar_str s).
Proof. unfold scalar_str. apply _. Defined.

(** The invariant of the [tags] column: NULL, or a JSON array of
    strings (of Unicode scalar values). *)
Definition tags_column_ok (c : option str) : Prop :=
  match c with
  | None => True
  | Some text => ∃ l, loads text = Some l ∧ Forall scalar_str l
  end.

Definition table_ok (t : Api.table) : Prop :=
  Forall (fun r => tags_column_ok (Api.row_tags r)) t.

(** The list an [Optional[List[str]]] argument stands for. *)
Definition tag_list (o : option (list str)) : list str := default [] o.

(** An image is linked to a tag of the given name. *)
Definition linked (db : Db.DatabaseManager) (i : Db.image) (n : str) : Prop :=
  ∃ t, t ∈ Db.tags db ∧ Db.name t = n
       ∧ (Db.image_id i, Db.tag_id t) ∈ Db.image_tags db.

(** The constraints of the normalized schema: the primary keys and the
    UNIQUE tag name. *)
Definition db_wf (db : Db.DatabaseManager) : Prop :=
  NoDup (map Db.image_id (Db.images db)) ∧
  NoDup (map Db.tag_id (Db.tags db)) ∧
  NoDup (map Db.name (Db.tags db)).

(** A flat table holding one photo tagged "Beach" and "summer", as a
    tag update writes it. *)
Definition beach_table : Api.table :=
  [Api.mk_row 1 (lit "beach.jpg") (lit "beach.jpg")
     (Some (lit "2023-07-15 10:30:00")) None None
     (Some (dumps [lit "Beach"; lit "summer"]))].

(** The joined rows of one image: a group of [GROUP BY i.id]. *)
Definition image_group (db : Db.DatabaseManager) (names : list str) (g : Z)
  : list (Db.image * Db.tag) :=
  List.filter (fun r => Z.eqb (Db.image_id r.1) g) (Db.joined db names).

(** The calls that change a [DatabaseManager], and the state after a
    sequence of them. *)
Inductive call : Type :=
  | call_add_image (file_path capture_date : str) (camera_model : option str)
      (latitude longitude : option Db.real)
  | call_add_tag (tag_name : str)
  | call_link_tag_to_image (image_id tag_id : Z)
  | call_delete_tag (tag_id : Z).

Definition run_call (db : Db.DatabaseManager) (c : call) : Db.DatabaseManager :=
  match c with
  | call_add_image f d m la lo => (Db.add_image db f d m la lo).2
  | call_add_tag n => (Db.add_tag db n).2
  | call_link_tag_to_image i t => (Db.link_tag_to_image db i t).2
  | call_delete_tag t => (Db.delete_tag db t).2
  end.

Definition run_calls (db : Db.DatabaseManager) (cs : list call)
  : Db.DatabaseManager :=
  fold_left run_call cs db.





(** The constraints of the flat schema: the primary key and the UNIQUE
    path. *)
Definition table_wf (t : Api.table) : Prop :=
  NoDup (map Api.row_id t) ∧ NoDup (map Api.row_path t).

(** The tag set stored for a photo: the decoded [tags] column of the row
    [fetchone()] finds. *)
Definition stored_tags (t : Api.table) (photo_id : Z) : option (gset str) :=
  match List.find (fun r => Z.eqb (Api.row_id r) photo_id) t with
  | Some r =>
      match Api.row_tag_list r with
      | Ok l => Some (list_to_set l)
      | Raise _ => None
      end
  | None => None
  end.

(** A filter field that is absent or empty. *)
Definition unset {A} (o : option (list A)) : Prop := o = None ∨ o = Some [].

(** The body of the loop of [db_add_sample_data]. *)
Definition sample_step (t : Api.table)
  (s : str * str * str * str * str * list str) : Api.table :=
  let '(path, filename, date_taken, location, camera_model, tags) := s in
  match Api.insert_photo t (path, filename, date_taken, location,
                            camera_model, dumps tags) with
  | Some t' => t'
  | None => t
  end.

(* ===================================================================== *)
(** * Properties *)
(* ===================================================================== *)

(** ** Substrings *)

Lemma is_prefix_spec p s : is_prefix p s = true ↔ ∃ post, s = p ++ post.
Proof.
  revert s. induction p as [|a p IH]; intros s; simpl.
  - split; [intros _; by exists s | done].
  - destruct s as [|b s].
    + split; [done | intros [post H]; discriminate].
    + rewrite andb_true_iff, N.eqb_eq, IH. split.
      * intros [-> [post ->]]. by exists post.
      * intros [post H]. injection H as -> ->. split; [done | by exists post].
Qed.

Lemma contains_spec hay needle :
  contains hay needle = true ↔ substring needle hay.
Proof.
  unfold substring. induction hay as [|c hay IH]; simpl.
  - rewrite orb_false_r, is_prefix_spec. split.
    + intros [post H]. by exists [], post.
    + intros (pre & post & H). destruct pre; [by exists post|discriminate].
  - rewrite orb_true_iff, is_prefix_spec, IH. split.
    + intros [[post H] | (pre & post & H)].
      * by exists [], post.
      * exists (c :: pre), post. by rewrite H.
    + intros (pre & post & H). destruct pre as [|c' pre].
      * left. by exists post.
      * right. injection H as _ H. by exists pre, post.
Qed.

(** ** The search placeholder *)

Section SearchProps.
Variable lower : str → str.

Lemma search_loop_acc q l acc :
  fold_left
    (fun matching_images m =>
       if Processing.found_in_tags lower q (default [] (Processing.tags m))
          || Processing.found_in_ocr lower q (default [] (Processing.ocr_text m))
       then matching_images ++ [Processing.path m]
       else matching_images) l acc
  = acc ++ map Processing.path
      (List.filter (fun m =>
         Processing.found_in_tags lower q (default [] (Processing.tags m))
         || Processing.found_in_ocr lower q (default [] (Processing.ocr_text m))) l).
Proof.
  revert acc. induction l as [|m l IH]; intros acc; simpl.
  - by rewrite app_nil_r.
  - rewrite IH. destruct (_ || _); simpl; [by rewrite <- app_assoc | done].
Qed.

Lemma found_in_tags_spec q tags :
  Processing.found_in_tags lower q tags = true ↔
  ∃ w tag, w ∈ split q ∧ tag ∈ tags ∧ substring w (lower tag).
Proof.
  unfold Processing.found_in_tags. rewrite existsb_exists. split.
  - intros (w & Hw & H). apply existsb_exists in H as (tag & Htag & H).
    exists w, tag. rewrite !list_elem_of_In. by rewrite <- contains_spec.
  - intros (w & tag & Hw & Htag & H). exists w.
    rewrite <- list_elem_of_In. split; [done|].
    apply existsb_exists. exists tag. rewrite <- list_elem_of_In.
    by rewrite contains_spec.
Qed.

Lemma search_condition_spec q m :
  Processing.found_in_tags lower (lower q) (default [] (Processing.tags m))
  || Processing.found_in_ocr lower (lower q) (default [] (Processing.ocr_text m))
  = true ↔ some_token_matches lower q m.
Proof.
  unfold some_token_matches, Processing.found_in_ocr.
  by rewrite orb_true_iff, found_in_tags_spec, contains_spec.
Qed.

End SearchProps.

Lemma selected_filter {A} (P : A → Prop) (f : A → bool) l :
  (∀ x, f x = true ↔ P x) → selected P l (List.filter f l).
Proof.
  intros Hf. induction l as [|x l IH]; simpl; [constructor|].
  destruct (f x) eqn:E.
  - apply selected_keep; [by apply Hf | done].
  - apply selected_skip; [|done]. rewrite <- Hf. congruence.
Qed.

Lemma selected_elem_of {A} (P : A → Prop) l l' x :
  selected P l l' → x ∈ l' ↔ x ∈ l ∧ P x.
Proof.
  induction 1 as [|y l l' Hy _ IH|y l l' Hy _ IH].
  - rewrite elem_of_nil. tauto.
  - rewrite !elem_of_cons, IH. split.
    + intros [-> | [? ?]]; auto.
    + intros [[-> | ?] ?]; auto.
  - rewrite elem_of_cons, IH. split.
    + intros [? ?]; auto.
    + intros [[-> | ?] ?]; [contradiction | auto].
Qed.

(** C2 (amended): for every query and every list of records, the search
    placeholder returns, in input order, exactly the paths of the records
    where SOME whitespace-split token of the lowercased query occurs in
    the lowercased form of some tag, or the whole lowercased query occurs
    in the lowercased extracted text. *)
Theorem semantic_search_some_token (lower : str → str) (query : str)
  (image_metadata_list : list Processing.metadata) :
  ∃ hits,
    selected (some_token_matches lower query) image_metadata_list hits ∧
    Processing.semantic_search_placeholder lower query image_metadata_list
    = map Processing.path hits.
Proof.
  eexists. split.
  - apply selected_filter. intros m. apply search_condition_spec.
  - unfold Processing.semantic_search_placeholder.
    by rewrite search_loop_acc.
Qed.

(** C2 as the specification states it fails: the query "cat zebra" finds
    a record tagged only "cat", although the token "zebra" occurs in no
    tag and the query does not occur in the (empty) extracted text. *)
Lemma semantic_search_every_token_fails :
  let m := Processing.mk_metadata (Some (lit "a.jpg")) (Some [lit "cat"])
             (Some (lit "")) in
  Processing.semantic_search_placeholder ascii_lower (lit "cat zebra") [m]
  = [Some (lit "a.jpg")]
  ∧ ¬ every_token_matches ascii_lower (lit "cat zebra") m.
Proof.
  split; [reflexivity|].
  intros [H | H].
  - destruct (H (lit "zebra")) as (tag & Htag & Hsub).
    + vm_compute. apply list_elem_of_further, list_elem_of_here.
    + simpl in Htag. apply list_elem_of_singleton in Htag as ->.
      apply contains_spec in Hsub. vm_compute in Hsub. discriminate.
  - apply contains_spec in H. vm_compute in H. discriminate.
Qed.

(** ** Lookups by key *)

Lemma existsb_str_eqb {A} (f : A → str) (x : str) (l : list A) :
  existsb (fun a => str_eqb (f a) x) l = true ↔ x ∈ map f l.
Proof.
  induction l as [|a l IH]; simpl.
  - rewrite elem_of_nil. split; [discriminate | tauto].
  - rewrite orb_true_iff, IH, elem_of_cons. unfold str_eqb.
    rewrite bool_decide_eq_true. split; intros [?|?]; auto.
Qed.

Lemma find_Z_None {A} (f : A → Z) (x : Z) (l : list A) :
  x ∉ map f l → List.find (fun a => Z.eqb (f a) x) l = None.
Proof.
  induction l as [|a l IH]; simpl; [done|].
  rewrite not_elem_of_cons. intros [Hne Hnot].
  destruct (Z.eqb_spec (f a) x); [congruence | auto].
Qed.

Lemma filter_Z_neq_id {A} (f : A → Z) (x : Z) (l : list A) :
  x ∉ map f l → List.filter (fun a => negb (Z.eqb (f a) x)) l = l.
Proof.
  induction l as [|a l IH]; simpl; [done|].
  rewrite not_elem_of_cons. intros [Hne Hnot].
  destruct (Z.eqb_spec (f a) x); [congruence | simpl; by rewrite IH].
Qed.

(** ** Creating records *)

(** C6: creating an image whose path is already stored adds no row,
    raises nothing and returns [None]; a fresh path returns the new
    identifier, so the two outcomes are told apart. *)
Theorem add_image_existing_path (db : Db.DatabaseManager)
  (file_path fresh_path capture_date : str) (camera_model : option str)
  (latitude longitude : option Db.real) :
  file_path ∈ map Db.file_path (Db.images db) →
  fresh_path ∉ map Db.file_path (Db.images db) →
  Db.add_image db file_path capture_date camera_model latitude longitude
  = (None, db)
  ∧ ∃ id db',
      Db.add_image db fresh_path capture_date camera_model latitude longitude
      = (Some id, db')
      ∧ length (Db.images db') = S (length (Db.images db)).
Proof.
  intros Hin Hfresh. unfold Db.add_image. split.
  - apply existsb_str_eqb in Hin. by rewrite Hin.
  - destruct (existsb _ _) eqn:E.
    + apply existsb_str_eqb in E. contradiction.
    + do 2 eexists. split; [reflexivity|]. simpl.
      rewrite length_app. simpl. lia.
Qed.

Lemma add_image_existing_path_witness :
  let db := (Db.add_image (Db.init None) (lit "/path/to/img1.jpg")
               (lit "2023-01-15 10:00:00") (Some (lit "Canon EOS R5"))
               None None).2 in
  Db.add_image db (lit "/path/to/img1.jpg") (lit "2023-01-15 10:00:00")
    (Some (lit "Canon EOS R5")) None None = (None, db).
Proof.
  intros db.
  refine (proj1 (add_image_existing_path db (lit "/path/to/img1.jpg")
                   (lit "/path/to/img2.png") _ _ _ _ _ _)).
  - vm_compute. apply list_elem_of_here.
  - intros H. apply list_elem_of_In in H. vm_compute in H.
    intuition discriminate.
Defined.

(** ** Unknown identifiers *)

(** C7: on an identifier (an INTEGER, as the id columns hold) that is
    not stored, the tag update returns [False] and both tag endpoints
    raise the 404 exception, the table being left as it was;
    [delete_tag] on an unknown tag id returns [False] and leaves the
    tables as they were. *)
Theorem tag_mutation_unknown_id (set_to_list : gset str → list str)
  (t : Api.table) (photo_id : Z) (add_tags remove_tags : option (list str))
  (tag_update : Api.TagUpdate) (tags_to_delete : list str)
  (db : Db.DatabaseManager) (tag_id : Z) :
  int64 photo_id → int64 tag_id →
  photo_id ∉ map Api.row_id t →
  tag_id ∉ map Db.tag_id (Db.tags db) →
  Api.db_update_photo_tags set_to_list t photo_id add_tags remove_tags
  = (Ok false, t)
  ∧ Api.update_photo_tags set_to_list t photo_id tag_update
    = (Raise (HTTPException 404 photo_not_found), t)
  ∧ Api.delete_photo_tags set_to_list t photo_id tags_to_delete
    = (Raise (HTTPException 404 photo_not_found), t)
  ∧ Db.delete_tag db tag_id = (false, db).
Proof.
  intros _ _ Hid Htag.
  assert (Hupd : ∀ a d,
    Api.db_update_photo_tags set_to_list t photo_id a d = (Ok false, t)).
  { intros a d. unfold Api.db_update_photo_tags.
    by rewrite (find_Z_None Api.row_id). }
  repeat split.
  - apply Hupd.
  - unfold Api.update_photo_tags. by rewrite Hupd.
  - unfold Api.delete_photo_tags. by rewrite Hupd.
  - unfold Db.delete_tag. rewrite (filter_Z_neq_id Db.tag_id) by done.
    rewrite Nat.sub_diag. simpl. rewrite andb_false_r. by destruct db.
Qed.

Lemma tag_mutation_unknown_id_witness :
  Api.update_photo_tags elements (Api.db_add_sample_data []) 99
    (Api.mk_TagUpdate (Some [lit "x"]) None)
  = (Raise (HTTPException 404 photo_not_found), Api.db_add_sample_data [])
  ∧ Db.delete_tag (Db.init None) 7 = (false, Db.init None).
Proof.
  assert (H1 : (99:Z) ∉ map Api.row_id (Api.db_add_sample_data [])).
  { intros H. apply list_elem_of_In in H. vm_compute in H.
    intuition discriminate. }
  assert (H2 : (7:Z) ∉ map Db.tag_id (Db.tags (Db.init None))).
  { intros H. apply list_elem_of_In in H. vm_compute in H. exact H. }
  assert (H3 : int64 99 ∧ int64 7) by (unfold int64; lia).
  pose proof (tag_mutation_unknown_id elements (Api.db_add_sample_data []) 99
                None None (Api.mk_TagUpdate (Some [lit "x"]) None) []
                (Db.init None) 7 (proj1 H3) (proj2 H3) H1 H2)
    as (_ & Hput & _ & Hdel).
  exact (conj Hput Hdel).
Defined.

(** ** Cloud sync *)

(** C8: a sync request for any service other than "google_drive" and
    "dropbox" raises the 400 exception and leaves the task queue as it
    was; each of the two supported names appends its task and returns the
    acknowledgement. *)
Theorem initiate_cloud_sync_services (sync_request : Api.CloudSyncRequest)
  (background_tasks : list Api.task) :
  (Api.service sync_request ≠ lit "google_drive" →
   Api.service sync_request ≠ lit "dropbox" →
   Api.initiate_cloud_sync sync_request background_tasks
   = (Raise (HTTPException 400 unsupported_cloud_service), background_tasks))
  ∧ (Api.service sync_request = lit "google_drive" →
     Api.initiate_cloud_sync sync_request background_tasks
     = (Ok Api.google_drive_sync_initiated,
        background_tasks ++ [Api.sync_with_google_drive]))
  ∧ (Api.service sync_request = lit "dropbox" →
     Api.initiate_cloud_sync sync_request background_tasks
     = (Ok Api.dropbox_sync_initiated,
        background_tasks ++ [Api.sync_with_dropbox])).
Proof.
  unfold Api.initiate_cloud_sync, str_eqb. repeat split.
  - intros H1 H2. by rewrite !bool_decide_eq_false_2.
  - intros ->. by rewrite bool_decide_eq_true_2.
  - intros ->. rewrite bool_decide_eq_false_2; [|by vm_compute].
    by rewrite bool_decide_eq_true_2.
Qed.

Lemma initiate_cloud_sync_services_witness :
  Api.initiate_cloud_sync (Api.mk_CloudSyncRequest (lit "carrier_pigeon")) []
  = (Raise (HTTPException 400 unsupported_cloud_service), [])
  ∧ Api.initiate_cloud_sync (Api.mk_CloudSyncRequest (lit "google_drive")) []
    = (Ok Api.google_drive_sync_initiated, [Api.sync_with_google_drive])
  ∧ Api.initiate_cloud_sync (Api.mk_CloudSyncRequest (lit "dropbox")) []
    = (Ok Api.dropbox_sync_initiated, [Api.sync_with_dropbox]).
Proof.
  split; [|split].
  - apply (proj1 (initiate_cloud_sync_services
                    (Api.mk_CloudSyncRequest (lit "carrier_pigeon")) []));
      by vm_compute.
  - apply (proj1 (proj2 (initiate_cloud_sync_services
                    (Api.mk_CloudSyncRequest (lit "google_drive")) []))).
    reflexivity.
  - apply (proj2 (proj2 (initiate_cloud_sync_services
                    (Api.mk_CloudSyncRequest (lit "dropbox")) []))).
    reflexivity.
Defined.

(** ** Frame of the tag update *)

Lemma same_but_tags_refl r : same_but_tags r r.
Proof. by repeat split. Qed.

(** C10: whatever the outcome of a tag update, the table afterwards has
    the same rows in the same order, each with its id, path, filename,
    date_taken, location and camera_model unchanged, and every row with
    another id is unchanged altogether. *)
Theorem update_tags_frame (set_to_list : gset str → list str)
  (t : Api.table) (photo_id : Z) (add_tags remove_tags : option (list str)) :
  Forall2 (fun r r' => same_but_tags r r' ∧ (Api.row_id r ≠ photo_id → r' = r))
    t (Api.db_update_photo_tags set_to_list t photo_id add_tags remove_tags).2.
Proof.
  assert (Hid : Forall2 (fun r r' : Api.row =>
            same_but_tags r r' ∧ (Api.row_id r ≠ photo_id → r' = r)) t t).
  { apply Forall2_same_length_lookup_2; [done|].
    intros i r r' H1 H2. assert (r' = r) as -> by congruence.
    split; [apply same_but_tags_refl | done]. }
  unfold Api.db_update_photo_tags.
  destruct (List.find _ t); [|done].
  destruct (Api.row_tag_list _); [|done]. simpl.
  clear Hid. induction t as [|r0 t IH]; simpl; constructor; [|done].
  destruct (Z.eqb_spec (Api.row_id r0) photo_id).
  - split; [by repeat split | done].
  - split; [apply same_but_tags_refl | done].
Qed.

(** ** Deleting a tag *)

Lemma delete_tag_without_foreign_keys (db : Db.DatabaseManager) (tag_id : Z) :
  Db.foreign_keys db = false →
  Db.image_tags (Db.delete_tag db tag_id).2 = Db.image_tags db.
Proof. intros H. unfold Db.delete_tag. simpl. by rewrite H. Qed.

(** C4 (the code departs from it): [delete_tag(1)] on a manager holding
    one image linked to the tag "New York" returns [True] and removes the
    tag, but the [image_tags] row [(1, 1)] stays: the connection never
    enables foreign keys, so ON DELETE CASCADE does not run.  A listing by
    "New York" is then empty, but the next tag added, "City", receives
    id 1 again and the stale row makes the image a match for it. *)
Theorem delete_tag_leaves_association :
  let img := Db.mk_image 1 (lit "/path/to/img1.jpg")
               (Some (lit "2023-01-15 10:00:00")) (Some (lit "Canon EOS R5"))
               None None in
  Db.delete_tag one_tagged_image 1 = (true, Db.mk_db false [img] [] [(1, 1)%Z])
  ∧ Db.get_images_by_tags (Db.delete_tag one_tagged_image 1).2 [lit "New York"]
    = []
  ∧ Db.add_tag (Db.delete_tag one_tagged_image 1).2 (lit "City")
    = (Some 1%Z, Db.mk_db false [img] [Db.mk_tag 1 (lit "City")] [(1, 1)%Z])
  ∧ Db.get_images_by_tags
      (Db.add_tag (Db.delete_tag one_tagged_image 1).2 (lit "City")).2
      [lit "City"]
    = [img].
Proof. vm_compute. repeat split. Qed.

(** ** [LIKE] *)

Lemma c_string_id s : 0 ∉ s → c_string s = s.
Proof.
  induction s as [|c s IH]; simpl; [done|].
  rewrite not_elem_of_cons. intros [Hc Hs].
  destruct (N.eqb_spec c 0); [congruence | by rewrite IH].
Qed.

Lemma c_string_app a b :
  c_string (a ++ b) = if bool_decide (0 ∈ a) then c_string a else a ++ c_string b.
Proof.
  induction a as [|c a IH].
  - by rewrite bool_decide_eq_false_2 by apply not_elem_of_nil.
  - cbn [app c_string]. destruct (N.eqb_spec c 0) as [-> | Hc].
    + by rewrite bool_decide_eq_true_2 by apply list_elem_of_here.
    + rewrite IH. destruct (decide (0 ∈ a)) as [Ha | Ha].
      * rewrite !bool_decide_eq_true_2; [done | by apply list_elem_of_further | done].
      * rewrite !bool_decide_eq_false_2; [done | | done].
        rewrite not_elem_of_cons. split; [congruence | done].
Qed.

Lemma c_string_Forall (P : N → Prop) s : Forall P s → Forall P (c_string s).
Proof.
  induction 1 as [|c s Hc _ IH]; simpl; [constructor|].
  destruct (c =? 0); [constructor | by constructor].
Qed.

Lemma pattern_compare_nil s : pattern_compare [] s = true ↔ s = [].
Proof. destruct s; simpl; split; congruence. Qed.

Lemma pattern_compare_percent pat s :
  pattern_compare (37 :: pat) s = true
  ↔ ∃ pre post, s = pre ++ post ∧ pattern_compare pat post = true.
Proof.
  change (pattern_compare (37 :: pat) s) with
    ((fix any_suffix (s : str) : bool :=
        pattern_compare pat s
        || match s with [] => false | _ :: s' => any_suffix s' end) s).
  induction s as [|c s IH].
  - rewrite orb_false_r. split.
    + intros H. by exists [], [].
    + intros (pre & post & H & Hl). by destruct pre, post.
  - rewrite orb_true_iff, IH. split.
    + intros [H | (pre & post & -> & H)].
      * by exists [], (c :: s).
      * by exists (c :: pre), post.
    + intros (pre & post & H & Hl). destruct pre as [|c' pre].
      * simpl in H. subst post. by left.
      * injection H as _ ->. right. by exists pre, post.
Qed.

Lemma tolower_not_wildcard p c :
  p ≠ 95 → ((p =? 95) || (tolower p =? tolower c)) = true ↔ tolower c = tolower p.
Proof.
  intros H. apply N.eqb_neq in H. rewrite H. simpl. rewrite N.eqb_eq.
  split; congruence.
Qed.

Lemma pattern_compare_literal x pat s :
  wildcard_free x →
  pattern_compare (x ++ pat) s = true ↔
  ∃ mid post, s = mid ++ post ∧ map tolower mid = map tolower x
              ∧ pattern_compare pat post = true.
Proof.
  intros Hx. revert s. induction Hx as [|p x [Hp1 Hp2] _ IH]; intros s.
  - simpl. split.
    + intros H. by exists [], s.
    + intros (mid & post & -> & Hm & H). by destruct mid.
  - simpl. apply N.eqb_neq in Hp1 as Hp1'. rewrite Hp1'.
    destruct s as [|c s].
    + split; [done|]. intros (mid & post & H & Hm & _).
      destruct mid; discriminate.
    + rewrite andb_true_iff, tolower_not_wildcard, IH by done. split.
      * intros (Hc & mid & post & -> & Hm & H).
        exists (c :: mid), post. simpl. by rewrite Hc, Hm.
      * intros (mid & post & H & Hm & Hl). destruct mid as [|c' mid];
          [discriminate|].
        simpl in H, Hm. injection H as -> ->. injection Hm as Hc Hm.
        split; [done|]. by exists mid, post.
Qed.

(** [column LIKE '%x%'] for an [x] without wildcards and without
    U+0000: [x] occurs in the stored text, read up to its first
    U+0000. *)
Lemma like_percent_literal x v :
  wildcard_free x → 0 ∉ x →
  like (Api.percent x) v = true ↔ substring_nocase x (c_string v).
Proof.
  intros Hx H0. unfold like, Api.percent, substring_nocase.
  rewrite (c_string_id (37 :: x ++ [37])).
  2:{ rewrite not_elem_of_cons, not_elem_of_app, not_elem_of_cons.
      repeat split; try done. apply not_elem_of_nil. }
  rewrite pattern_compare_percent. split.
  - intros (pre & rest & -> & H).
    apply (pattern_compare_literal x [37] rest Hx) in H
      as (mid & post & -> & Hm & _).
    by exists pre, mid, post.
  - intros (pre & mid & post & -> & Hm).
    exists pre, (mid ++ post). split; [done|].
    apply (pattern_compare_literal x [37] _ Hx). exists mid, post.
    split; [done|]. split; [done|].
    apply pattern_compare_percent. exists post, []. by rewrite app_nil_r.
Qed.

(** The same for an [x] that holds U+0000: the pattern ends there, so
    the part of [x] before it must end the stored text. *)
Lemma like_percent_cut x v :
  wildcard_free x → 0 ∈ x →
  like (Api.percent x) v = true ↔ suffix_nocase (c_string x) (c_string v).
Proof.
  intros Hx H0. unfold like, Api.percent, suffix_nocase.
  cbn [c_string N.eqb]. rewrite c_string_app, bool_decide_eq_true_2 by done.
  rewrite pattern_compare_percent.
  assert (Hc : wildcard_free (c_string x)) by by apply c_string_Forall.
  split.
  - intros (pre & rest & -> & H).
    rewrite <- (app_nil_r (c_string x)) in H.
    apply (pattern_compare_literal _ [] rest Hc) in H
      as (mid & post & -> & Hm & Hp).
    apply pattern_compare_nil in Hp as ->. rewrite app_nil_r.
    by exists pre, mid.
  - intros (pre & mid & -> & Hm). exists pre, mid. split; [done|].
    rewrite <- (app_nil_r (c_string x)).
    apply (pattern_compare_literal _ [] mid Hc). exists mid, [].
    by rewrite app_nil_r.
Qed.

(** ** WHERE clauses *)

Lemma forallb_opt_clause {column row} (value : column → row → option str)
  (o : option str) (mk : str → clause column) (r : row) :
  forallb (fun cl => eval_clause value cl r)
    (match o with Some d => [mk d] | None => [] end) = true
  ↔ ∀ d, o = Some d → eval_clause value (mk d) r = true.
Proof.
  destruct o as [d|]; simpl.
  - rewrite andb_true_r. split; [by intros H ? [= <-] | auto].
  - split; [done | auto].
Qed.

Lemma eval_Ge {column row} (value : column → row → option str) c p (r : row) :
  eval_clause value (Ge c p) r = true ↔ ∃ v, value c r = Some v ∧ str_leb p v = true.
Proof.
  simpl. destruct (value c r) as [v|].
  - split; [by exists v | by intros (? & [= <-] & ?)].
  - split; [done | by intros (? & ? & ?)].
Qed.

Lemma eval_Le {column row} (value : column → row → option str) c p (r : row) :
  eval_clause value (Le c p) r = true ↔ ∃ v, value c r = Some v ∧ str_leb v p = true.
Proof.
  simpl. destruct (value c r) as [v|].
  - split; [by exists v | by intros (? & [= <-] & ?)].
  - split; [done | by intros (? & ? & ?)].
Qed.

Lemma eval_Like {column row} (value : column → row → option str) c p (r : row) :
  eval_clause value (Like c p) r = true ↔ ∃ v, value c r = Some v ∧ like p v = true.
Proof.
  simpl. destruct (value c r) as [v|].
  - split; [by exists v | by intros (? & [= <-] & ?)].
  - split; [done | by intros (? & ? & ?)].
Qed.

Lemma photo_query_spec (f : Api.PhotoFilter) (r : Api.row) :
  forallb (fun cl => eval_clause Api.value cl r) (Api.build_query f) = true
  ↔ photo_filter_holds f r.
Proof.
  unfold Api.build_query, photo_filter_holds.
  rewrite !forallb_app, !andb_true_iff.
  rewrite (forallb_opt_clause _ _ (Ge Api.c_date_taken)).
  rewrite (forallb_opt_clause _ _ (Le Api.c_date_taken)).
  rewrite (forallb_opt_clause _ _ (fun l => Like Api.c_location (Api.percent l))).
  rewrite (forallb_opt_clause _ _
             (fun m => Like Api.c_camera_model (Api.percent m))).
  setoid_rewrite eval_Ge. setoid_rewrite eval_Le. setoid_rewrite eval_Like.
  repeat apply and_iff_compat_l.
  destruct (truthy (Api.filter_tags f)) as [ts|].
  - rewrite forallb_forall. split.
    + intros H ts' tag [= <-] Hin. apply (eval_Like Api.value Api.c_tags).
      apply (H (Like Api.c_tags (Api.tag_pattern tag))).
      apply (in_map (fun tag => Like Api.c_tags (Api.tag_pattern tag))).
      by apply list_elem_of_In.
    + intros H cl Hcl. apply in_map_iff in Hcl as (tag & <- & Hin).
      apply (eval_Like Api.value Api.c_tags).
      apply (H ts tag eq_refl). by apply list_elem_of_In.
  - split; [done | auto].
Qed.

Lemma metadata_query_spec (start_date end_date camera_model : option str)
  (i : Db.image) :
  forallb (fun cl => eval_clause Db.value cl i)
    (Db.build_query start_date end_date camera_model) = true
  ↔ metadata_filter_holds start_date end_date camera_model i.
Proof.
  unfold Db.build_query, metadata_filter_holds.
  rewrite !forallb_app, !andb_true_iff.
  rewrite (forallb_opt_clause _ _ (Ge Db.c_capture_date)).
  rewrite (forallb_opt_clause _ _ (Le Db.c_capture_date)).
  rewrite (forallb_opt_clause _ _
             (fun m => Like Db.c_camera_model (37 :: m ++ [37]))).
  setoid_rewrite eval_Ge. setoid_rewrite eval_Le. setoid_rewrite eval_Like.
  reflexivity.
Qed.

(** ** Queries within the limits of the engine *)

Lemma eval_where_within {column row} (value : column → row → option str)
  (query : list (clause column)) (r : row) :
  Forall (fun cl => too_complex cl = false) query →
  eval_where value query r ≠ None.
Proof.
  induction 1 as [|cl q Hcl _ IH]; simpl; [done|].
  rewrite Hcl. by destruct (eval_clause value cl r).
Qed.

Lemma fetchall_within {column row} (value : column → row → option str)
  (query : list (clause column)) (t : list row) :
  within_limits query →
  fetchall value query t = Some (select_where value query t).
Proof.
  intros [Hdepth Hlike]. unfold fetchall.
  rewrite (proj2 (N.ltb_ge _ _) Hdepth).
  replace (existsb _ t) with false; [done|].
  symmetry. apply not_true_is_false. rewrite existsb_exists.
  intros (r & _ & Hr). apply bool_decide_eq_true in Hr.
  by apply (eval_where_within value query r).
Qed.

(** C3 (amended): for a query within the limits of the engine, the rows
    a listing reads are exactly those for which every supplied filter
    holds (the predicates combine conjunctively, a NULL column failing any
    predicate on it), in both stores; and a substring filter [x] without
    [%] and [_] holds of a stored field exactly when [x] occurs, up to
    the case of ASCII letters, in the field read up to its first U+0000
    (an [x] that holds U+0000 is cut there, and what is left of it must
    end the field). *)
Theorem listing_filters_conjunctive_like
  (t : Api.table) (filters : Api.PhotoFilter)
  (db : Db.DatabaseManager) (start_date end_date camera_model : option str)
  (x v : str) :
  wildcard_free x →
  (within_limits (Api.build_query filters) →
   ∃ rows, selected (photo_filter_holds filters) t rows ∧
           Api.db_get_photos t filters = map_result Api.photo_of_row rows)
  ∧ (within_limits (Db.build_query start_date end_date camera_model) →
     selected (metadata_filter_holds start_date end_date camera_model)
       (Db.images db)
       (Db.get_images_by_metadata db start_date end_date camera_model))
  ∧ (0 ∉ x →
     (like (Api.percent x) v = true ↔ substring_nocase x (c_string v)))
  ∧ (0 ∈ x →
     (like (Api.percent x) v = true
      ↔ suffix_nocase (c_string x) (c_string v))).
Proof.
  intros Hx. split; [|split; [|split]].
  - intros Hlim. eexists. split.
    + apply selected_filter. intros r. apply photo_query_spec.
    + unfold Api.db_get_photos. by rewrite fetchall_within.
  - intros Hlim. unfold Db.get_images_by_metadata.
    rewrite fetchall_within by done.
    apply selected_filter. intros i. apply metadata_query_spec.
  - by apply like_percent_literal.
  - by apply like_percent_cut.
Qed.

Lemma listing_filters_conjunctive_like_witness :
  wildcard_free (lit "Canon") ∧
  (∃ rows,
     selected (photo_filter_holds
                 (Api.mk_PhotoFilter None None None None (Some (lit "Canon"))))
       (Api.startup_event None) rows ∧
     Api.db_get_photos (Api.startup_event None)
       (Api.mk_PhotoFilter None None None None (Some (lit "Canon")))
     = map_result Api.photo_of_row rows) ∧
  (like (Api.percent (lit "Canon")) (lit "Canon EOS R5") = true
   ↔ substring_nocase (lit "Canon") (c_string (lit "Canon EOS R5"))).
Proof.
  assert (H : wildcard_free (lit "Canon")).
  { repeat (constructor; [split; discriminate|]). constructor. }
  split; [exact H|].
  pose proof (listing_filters_conjunctive_like (Api.startup_event None)
                (Api.mk_PhotoFilter None None None None (Some (lit "Canon")))
                (Db.init None) None None None (lit "Canon")
                (lit "Canon EOS R5") H) as (Hrows & _ & Hlike & _).
  split.
  - apply Hrows. split; [by vm_compute|].
    by repeat constructor.
  - apply Hlike. intros H0. apply list_elem_of_In in H0. vm_compute in H0.
    intuition discriminate.
Defined.

(** C3 as the specification states it fails: the camera-model filters
    "canon" and "E_S" both select the sample photo whose camera model is
    "Canon EOS R5", in which neither occurs as a case-sensitive literal
    substring; the normalized store does the same. *)
Lemma camera_filter_folds_case_and_wildcards :
  let beach := Api.mk_Photo 1 (lit "C:/photos/vacation/beach.jpg")
                 (lit "beach.jpg") (lit "2023-07-15 10:30:00")
                 (Some (lit "Пляж")) (Some (lit "Canon EOS R5"))
                 [lit "відпустка"; lit "пляж"; lit "літо"] in
  Api.db_get_photos (Api.db_add_sample_data [])
    (Api.mk_PhotoFilter None None None None (Some (lit "canon")))
  = Ok [beach]
  ∧ ¬ substring (lit "canon") (lit "Canon EOS R5")
  ∧ Api.db_get_photos (Api.db_add_sample_data [])
      (Api.mk_PhotoFilter None None None None (Some (lit "E_S")))
    = Ok [beach]
  ∧ ¬ substring (lit "E_S") (lit "Canon EOS R5")
  ∧ Db.get_images_by_metadata one_tagged_image None None (Some (lit "canon"))
    = Db.images one_tagged_image
  ∧ Db.images one_tagged_image ≠ [].
Proof.
  repeat split; try reflexivity.
  - intros H. apply contains_spec in H. vm_compute in H. discriminate.
  - intros H. apply contains_spec in H. vm_compute in H. discriminate.
  - vm_compute. discriminate.
Qed.

(** ** JSON: reading back what [dumps] wrote *)

Lemma hex_val_digit d : d < 16 → hex_val (hex_digit d) = Some d.
Proof.
  intros H. unfold hex_digit, hex_val.
  destruct (N.ltb_spec d 10).
  - replace ((48 <=? 48 + d) && (48 + d <=? 57)) with true.
    + f_equal. lia.
    + symmetry. apply andb_true_iff. split; apply N.leb_le; lia.
  - replace ((48 <=? 87 + d) && (87 + d <=? 57)) with false.
    + replace ((97 <=? 87 + d) && (87 + d <=? 102)) with true.
      * f_equal. lia.
      * symmetry. apply andb_true_iff. split; apply N.leb_le; lia.
    + symmetry. apply andb_false_iff. right. apply N.leb_gt. lia.
Qed.

Lemma hex_digits_value n :
  n < 65536 →
  (((n / 4096 mod 16) * 16 + n / 256 mod 16) * 16 + n / 16 mod 16) * 16
  + n mod 16 = n.
Proof.
  intros H.
  replace (n / 4096) with (n / 16 / 16 / 16)
    by (rewrite !N.Div0.div_div; reflexivity).
  replace (n / 256) with (n / 16 / 16) by (rewrite !N.Div0.div_div; reflexivity).
  pose proof (N.div_mod n 16 ltac:(lia)).
  pose proof (N.div_mod (n / 16) 16 ltac:(lia)).
  pose proof (N.div_mod (n / 16 / 16) 16 ltac:(lia)).
  pose proof (N.div_mod (n / 16 / 16 / 16) 16 ltac:(lia)).
  pose proof (N.mod_lt n 16 ltac:(lia)).
  pose proof (N.mod_lt (n / 16) 16 ltac:(lia)).
  pose proof (N.mod_lt (n / 16 / 16) 16 ltac:(lia)).
  pose proof (N.mod_lt (n / 16 / 16 / 16) 16 ltac:(lia)).
  generalize dependent (n mod 16). generalize dependent (n / 16 mod 16).
  generalize dependent (n / 16 / 16 mod 16).
  generalize dependent (n / 16 / 16 / 16 mod 16).
  generalize dependent (n / 16 / 16 / 16 / 16).
  generalize dependent (n / 16 / 16 / 16).
  generalize dependent (n / 16 / 16). generalize dependent (n / 16).
  intros. lia.
Qed.

(** The four digits [hex4] writes decode to the number written. *)
Lemma decode_hex4 n tail :
  n < 65536 →
  ∃ h1 h2 h3 h4, hex4 n ++ tail = h1 :: h2 :: h3 :: h4 :: tail
                 ∧ decode_uXXXX h1 h2 h3 h4 = Some n.
Proof.
  intros H. do 4 eexists. split; [reflexivity|].
  unfold decode_uXXXX.
  rewrite !hex_val_digit by (apply N.mod_lt; lia).
  f_equal. by apply hex_digits_value.
Qed.

Lemma lor_shiftl_add a b k : b < 2 ^ k → N.lor (N.shiftl a k) b = a * 2 ^ k + b.
Proof.
  intros H. rewrite <- N.shiftl_mul_pow2.
  assert (Hland : N.land (N.shiftl a k) b = 0).
  { apply N.bits_inj. intros i. rewrite N.land_spec, N.bits_0.
    destruct (N.lt_ge_cases i k) as [Hi | Hi].
    - by rewrite N.shiftl_spec_low.
    - rewrite andb_comm. destruct (N.eq_dec b 0) as [-> | Hb].
      + by rewrite N.bits_0.
      + rewrite N.bits_above_log2; [done|].
        apply N.log2_lt_pow2; [lia|].
        eapply N.lt_le_trans; [eassumption|]. apply N.pow_le_mono_r; lia. }
  by rewrite <- N.lxor_lor, <- N.add_nocarry_lxor.
Qed.

(** The surrogate pair [escape_char] writes for a code point above the
    BMP, and its decoding. *)
Lemma high_surrogate_value c :
  65536 ≤ c → c < 1114112 →
  N.lor 55296 (N.land (N.shiftr (c - 65536) 10) 1023)
  = 55296 + (c - 65536) / 1024.
Proof.
  intros H1 H2. rewrite N.shiftr_div_pow2.
  change 1023 with (N.ones 10). rewrite N.land_ones.
  change (2 ^ 10) with 1024.
  assert ((c - 65536) / 1024 < 1024) by (apply N.Div0.div_lt_upper_bound; lia).
  rewrite N.mod_small by done.
  change 55296 with (N.shiftl 54 10) at 1.
  rewrite lor_shiftl_add by done. reflexivity.
Qed.

Lemma low_surrogate_value c :
  N.lor 56320 (N.land (c - 65536) 1023) = 56320 + (c - 65536) mod 1024.
Proof.
  change 1023 with (N.ones 10). rewrite N.land_ones.
  change (2 ^ 10) with 1024.
  change 56320 with (N.shiftl 55 10) at 1.
  rewrite lor_shiftl_add by (apply N.mod_lt; lia). reflexivity.
Qed.

Lemma join_surrogates_value c :
  65536 ≤ c → c < 1114112 →
  join_surrogates (55296 + (c - 65536) / 1024) (56320 + (c - 65536) mod 1024)
  = c.
Proof.
  intros H1 H2. unfold join_surrogates.
  rewrite (N.add_comm 55296), (N.add_comm 56320), !N.add_sub.
  rewrite lor_shiftl_add by (apply N.mod_lt; lia).
  change (2 ^ 10) with 1024.
  pose proof (N.div_mod (c - 65536) 1024 ltac:(lia)). lia.
Qed.

(** One step of [scanstring] on each kind of input. *)
Lemma scan_plain c r acc :
  c ≠ 34 → c ≠ 92 → 32 ≤ c → scanstring (c :: r) acc = scanstring r (c :: acc).
Proof.
  intros H1 H2 H3. cbn [scanstring].
  apply N.eqb_neq in H1, H2. rewrite H1, H2.
  by rewrite (proj2 (N.ltb_ge c 32) H3).
Qed.

Lemma scan_u h1 h2 h3 h4 u r acc :
  decode_uXXXX h1 h2 h3 h4 = Some u → is_high_surrogate u = false →
  scanstring (92 :: 117 :: h1 :: h2 :: h3 :: h4 :: r) acc
  = scanstring r (u :: acc).
Proof.
  intros Hd Hh.
  change (scanstring (92 :: 117 :: h1 :: h2 :: h3 :: h4 :: r) acc) with
    (match decode_uXXXX h1 h2 h3 h4 with
     | None => None
     | Some u =>
         if is_high_surrogate u then
           match r with
           | b :: v :: k1 :: k2 :: k3 :: k4 :: r3 =>
               if (b =? 92) && (v =? 117) then
                 match decode_uXXXX k1 k2 k3 k4 with
                 | None => None
                 | Some u2 =>
                     if is_low_surrogate u2
                     then scanstring r3 (join_surrogates u u2 :: acc)
                     else scanstring r (u :: acc)
                 end
               else scanstring r (u :: acc)
           | _ => scanstring r (u :: acc)
           end
         else scanstring r (u :: acc)
     end).
  by rewrite Hd, Hh.
Qed.

Lemma scan_pair h1 h2 h3 h4 k1 k2 k3 k4 u u2 r acc :
  decode_uXXXX h1 h2 h3 h4 = Some u → is_high_surrogate u = true →
  decode_uXXXX k1 k2 k3 k4 = Some u2 → is_low_surrogate u2 = true →
  scanstring (92 :: 117 :: h1 :: h2 :: h3 :: h4 ::
              92 :: 117 :: k1 :: k2 :: k3 :: k4 :: r) acc
  = scanstring r (join_surrogates u u2 :: acc).
Proof.
  intros Hd Hh Hd2 Hl.
  change (scanstring (92 :: 117 :: h1 :: h2 :: h3 :: h4 ::
                      92 :: 117 :: k1 :: k2 :: k3 :: k4 :: r) acc) with
    (match decode_uXXXX h1 h2 h3 h4 with
     | None => None
     | Some u =>
         if is_high_surrogate u then
           match decode_uXXXX k1 k2 k3 k4 with
           | None => None
           | Some u2 =>
               if is_low_surrogate u2
               then scanstring r (join_surrogates u u2 :: acc)
               else scanstring (92 :: 117 :: k1 :: k2 :: k3 :: k4 :: r)
                      (u :: acc)
           end
         else scanstring (92 :: 117 :: k1 :: k2 :: k3 :: k4 :: r) (u :: acc)
     end).
  by rewrite Hd, Hh, Hd2, Hl.
Qed.

(** [scanstring] reads one escaped character back. *)
Lemma scan_escape_char c tail acc :
  scalar c → scanstring (escape_char c ++ tail) acc = scanstring tail (c :: acc).
Proof.
  intros Hc. unfold escape_char.
  destruct (N.eqb_spec c 34) as [-> | H34]; [reflexivity|].
  destruct (N.eqb_spec c 92) as [-> | H92]; [reflexivity|].
  destruct (N.eqb_spec c 10) as [-> | H10]; [reflexivity|].
  destruct (N.eqb_spec c 13) as [-> | H13]; [reflexivity|].
  destruct (N.eqb_spec c 9) as [-> | H9]; [reflexivity|].
  destruct (N.eqb_spec c 8) as [-> | H8]; [reflexivity|].
  destruct (N.eqb_spec c 12) as [-> | H12]; [reflexivity|].
  destruct ((32 <=? c) && (c <=? 126)) eqn:Hp.
  { apply andb_true_iff in Hp as [Hp _]. apply N.leb_le in Hp.
    by apply scan_plain. }
  destruct (N.ltb_spec c 65536) as [Hbmp | Hbmp].
  - change ((92 :: 117 :: hex4 c) ++ tail) with (92 :: 117 :: (hex4 c ++ tail)).
    destruct (decode_hex4 c tail Hbmp) as (h1 & h2 & h3 & h4 & -> & Hd).
    apply scan_u; [done|].
    unfold is_high_surrogate. apply andb_false_iff.
    destruct Hc as [Hc | [Hc _]]; [left; apply N.leb_gt | right; apply N.leb_gt];
      lia.
  - assert (Hmax : c < 1114112) by (destruct Hc as [Hc | [_ Hc]]; lia).
    cbv zeta. rewrite high_surrogate_value, low_surrogate_value by done.
    pose proof (N.mod_lt (c - 65536) 1024 ltac:(lia)) as Hlo.
    assert (Hhi : (c - 65536) / 1024 < 1024)
      by (apply N.Div0.div_lt_upper_bound; lia).
    pose proof (join_surrogates_value c Hbmp Hmax) as Hjoin.
    remember ((c - 65536) / 1024) as q eqn:Hq.
    remember ((c - 65536) mod 1024) as m eqn:Hm.
    clear Hq Hm.
    change (scanstring
              (92 :: 117 :: (hex4 (55296 + q)
                 ++ 92 :: 117 :: (hex4 (56320 + m) ++ tail))) acc
            = scanstring tail (c :: acc)).
    destruct (decode_hex4 (56320 + m) tail)
      as (k1 & k2 & k3 & k4 & -> & Hd2); [lia|].
    destruct (decode_hex4 (55296 + q)
                (92 :: 117 :: k1 :: k2 :: k3 :: k4 :: tail))
      as (h1 & h2 & h3 & h4 & -> & Hd1); [lia|].
    rewrite (scan_pair _ _ _ _ _ _ _ _ (55296 + q) (56320 + m)); try done.
    + by rewrite Hjoin.
    + unfold is_high_surrogate. apply andb_true_iff.
      split; apply N.leb_le; lia.
    + unfold is_low_surrogate. apply andb_true_iff.
      split; apply N.leb_le; lia.
Qed.

Lemma scan_escape s tail acc :
  scalar_str s →
  scanstring (escape s ++ 34 :: tail) acc = Some (rev acc ++ s, tail).
Proof.
  intros Hs. revert acc. induction Hs as [|c s Hc _ IH]; intros acc.
  - simpl. by rewrite app_nil_r.
  - unfold escape. simpl. rewrite <- app_assoc.
    rewrite scan_escape_char by done.
    fold (escape s). rewrite IH. simpl. by rewrite <- app_assoc.
Qed.

Lemma join_encoded_cons v l :
  join [44; 32] (map encode_basestring_ascii (v :: l)) ++ [93]
  = 34 :: escape v ++ 34 ::
      match l with
      | [] => [93]
      | _ => 44 :: 32 :: (join [44; 32] (map encode_basestring_ascii l) ++ [93])
      end.
Proof.
  destruct l as [|w l]; unfold encode_basestring_ascii; simpl.
  - by rewrite <- app_assoc.
  - rewrite <- !app_assoc. reflexivity.
Qed.

Lemma join_encoded_length l :
  Nat.le (length l) (length (join [44; 32] (map encode_basestring_ascii l))).
Proof.
  induction l as [|v l IH]; [simpl; lia|].
  change (map encode_basestring_ascii (v :: l))
    with (encode_basestring_ascii v :: map encode_basestring_ascii l).
  destruct (map encode_basestring_ascii l) as [|e es] eqn:E.
  - destruct l; [simpl; lia | discriminate].
  - change (join [44; 32] (encode_basestring_ascii v :: e :: es))
      with (encode_basestring_ascii v ++ [44; 32] ++ join [44; 32] (e :: es)).
    rewrite !length_app. simpl in IH |- *. unfold Nat.le in *. lia.
Qed.

Lemma array_items_encoded l : ∀ v acc fuel,
  Forall scalar_str (v :: l) → (length (v :: l) ≤ fuel)%nat →
  array_items fuel
    (join [44; 32] (map encode_basestring_ascii (v :: l)) ++ [93]) acc
  = Some (rev acc ++ v :: l, []).
Proof.
  induction l as [|w l IH]; intros v acc fuel Hs Hfuel;
    (destruct fuel as [|fuel]; [simpl in Hfuel; lia|]);
    rewrite join_encoded_cons; inversion_clear Hs as [|? ? Hv Hl];
    cbn [array_items]; rewrite N.eqb_refl, scan_escape by done.
  - reflexivity.
  - cbn [skip_ws is_ws N.eqb Pos.eqb orb]. rewrite join_encoded_cons.
    cbn [skip_ws is_ws N.eqb Pos.eqb orb]. rewrite <- join_encoded_cons.
    rewrite IH; [|done|simpl in *; lia].
    simpl. by rewrite <- app_assoc.
Qed.

(** [json.loads(json.dumps(l))] is [l], for strings of Unicode scalar
    values. *)
Lemma loads_dumps l : Forall scalar_str l → loads (dumps l) = Some l.
Proof.
  intros Hs. unfold loads, dumps.
  cbn [skip_ws is_ws N.eqb Pos.eqb orb].
  destruct l as [|v l]; [reflexivity|].
  pose proof (join_encoded_length (v :: l)) as Hlen.
  rewrite join_encoded_cons. cbn [skip_ws is_ws N.eqb Pos.eqb orb].
  rewrite <- join_encoded_cons. rewrite array_items_encoded; [done|done|].
  unfold Nat.le in Hlen. cbn [length] in *. rewrite length_app. lia.
Qed.

(** ** The [tags] column *)

Lemma truthy_tag_list (o : option (list str)) :
  truthy o = None ∧ tag_list o = [] ∨ truthy o = Some (tag_list o).
Proof. destruct o as [[|x l]|]; simpl; auto. Qed.

Lemma dumps_truthy l : truthy (Some (dumps l)) = Some (dumps l).
Proof. reflexivity. Qed.

Lemma row_tag_list_dumps r l :
  Api.row_tags r = Some (dumps l) → Forall scalar_str l →
  Api.row_tag_list r = Ok l.
Proof.
  intros H Hl. unfold Api.row_tag_list. rewrite H, dumps_truthy.
  by rewrite loads_dumps.
Qed.

Lemma row_tag_list_ok r :
  tags_column_ok (Api.row_tags r) →
  ∃ l, Api.row_tag_list r = Ok l ∧ Forall scalar_str l.
Proof.
  unfold tags_column_ok, Api.row_tag_list.
  destruct (Api.row_tags r) as [text|]; simpl.
  - intros (l & Hl & Hs). destruct text as [|c text]; [discriminate|].
    rewrite Hl. by exists l.
  - intros _. exists []. split; [done | constructor].
Qed.

Lemma find_elem_of {A} (f : A → bool) (l : list A) (x : A) :
  List.find f l = Some x → x ∈ l ∧ f x = true.
Proof.
  intros H. apply find_some in H as [H1 H2]. split; [|done].
  by apply list_elem_of_In.
Qed.

Section TagSets.
Variable set_to_list : gset str → list str.
Hypothesis set_to_list_elements : ∀ X, set_to_list X ≡ₚ elements X.

Lemma set_to_list_set (X : gset str) : list_to_set (set_to_list X) = X.
Proof.
  apply set_eq. intros x.
  by rewrite elem_of_list_to_set, set_to_list_elements, elem_of_elements.
Qed.


Lemma set_to_list_scalar (X : gset str) :
  (∀ x, x ∈ X → scalar_str x) → Forall scalar_str (set_to_list X).
Proof.
  intros H. apply Forall_forall. intros x Hx. apply H.
  by rewrite set_to_list_elements, elem_of_elements in Hx.
Qed.

(** The set [db_update_photo_tags] computes. *)
Lemma updated_set (old : list str) (add_tags remove_tags : option (list str)) :
  match truthy remove_tags with
  | Some d =>
      match truthy add_tags with
      | Some a => list_to_set old ∪ list_to_set a
      | None => list_to_set old
      end ∖ list_to_set d
  | None =>
      match truthy add_tags with
      | Some a => list_to_set old ∪ list_to_set a
      | None => list_to_set old
      end
  end
  = ((list_to_set old ∪ list_to_set (tag_list add_tags))
       ∖ list_to_set (tag_list remove_tags) : gset str).
Proof.
  destruct (truthy_tag_list add_tags) as [[-> ->] | ->];
    destruct (truthy_tag_list remove_tags) as [[-> ->] | ->];
    simpl; set_solver.
Qed.

(** What a tag update does to a table that holds the photo. *)
Lemma db_update_photo_tags_found t photo_id add_tags remove_tags r old :
  List.find (fun r => Z.eqb (Api.row_id r) photo_id) t = Some r →
  Api.row_tag_list r = Ok old →
  Api.db_update_photo_tags set_to_list t photo_id add_tags remove_tags
  = (Ok true,
     map (fun r => if Z.eqb (Api.row_id r) photo_id
                   then Api.mk_row (Api.row_id r) (Api.row_path r)
                          (Api.row_filename r) (Api.row_date_taken r)
                          (Api.row_location r) (Api.row_camera_model r)
                          (Some (dumps (set_to_list
                             ((list_to_set old ∪ list_to_set (tag_list add_tags))
                                ∖ list_to_set (tag_list remove_tags)))))
                   else r) t).
Proof.
  intros Hfind Hold. unfold Api.db_update_photo_tags.
  rewrite Hfind, Hold. rewrite <- updated_set.
  by destruct (truthy remove_tags).
Qed.

Lemma find_map_update {A} (f : A → Z) (g : A → A) (x : Z) (l : list A) (a : A) :
  (∀ a, f (g a) = f a) →
  List.find (fun a => Z.eqb (f a) x) l = Some a →
  List.find (fun a => Z.eqb (f a) x)
    (map (fun a => if Z.eqb (f a) x then g a else a) l) = Some (g a).
Proof.
  intros Hg. induction l as [|b l IH]; simpl; [done|].
  destruct (Z.eqb (f b) x) eqn:E.
  - intros [= ->]. simpl. by rewrite Hg, E.
  - intros H. simpl. rewrite E. auto.
Qed.

End TagSets.

(** C5: on a stored photo whose tags decode to [old], the tag update
    succeeds and stores a tag list whose set is
    [(old ∪ add_tags) ∖ remove_tags], the removal applied after the
    addition (so a tag in both lists ends up removed). *)
Theorem update_tags_union_then_difference
  (set_to_list : gset str → list str)
  (t : Api.table) (photo_id : Z) (add_tags remove_tags : option (list str))
  (r : Api.row) (old : list str) :
  (∀ X, set_to_list X ≡ₚ elements X) →
  List.find (fun r => Z.eqb (Api.row_id r) photo_id) t = Some r →
  Api.row_tag_list r = Ok old →
  Forall scalar_str old → Forall scalar_str (tag_list add_tags) →
  ∃ t' r' new,
    Api.db_update_photo_tags set_to_list t photo_id add_tags remove_tags
    = (Ok true, t')
    ∧ List.find (fun r => Z.eqb (Api.row_id r) photo_id) t' = Some r'
    ∧ Api.row_tag_list r' = Ok new
    ∧ (list_to_set new : gset str)
      = (list_to_set old ∪ list_to_set (tag_list add_tags))
          ∖ list_to_set (tag_list remove_tags).
Proof.
  intros Hperm Hfind Hold Hso Hsa.
  set (X := ((list_to_set old ∪ list_to_set (tag_list add_tags))
               ∖ list_to_set (tag_list remove_tags) : gset str)).
  eexists _, _, (set_to_list X). split; [|split; [|split]].
  - by apply (db_update_photo_tags_found set_to_list Hperm t photo_id
                add_tags remove_tags r old).
  - by apply (find_map_update Api.row_id
                (fun r => Api.mk_row (Api.row_id r) (Api.row_path r)
                   (Api.row_filename r) (Api.row_date_taken r)
                   (Api.row_location r) (Api.row_camera_model r)
                   (Some (dumps (set_to_list X))))).
  - apply row_tag_list_dumps; [done|].
    apply set_to_list_scalar; [done|]. intros x Hx.
    apply elem_of_difference in Hx as [Hx _].
    apply elem_of_union in Hx as [Hx | Hx];
      apply elem_of_list_to_set in Hx.
    + by eapply Forall_forall in Hso.
    + by eapply Forall_forall in Hsa.
  - by apply set_to_list_set.
Qed.

(** The case the specification singles out: no prior tags, add "x",
    remove "x": the stored tag list is empty. *)
Lemma update_tags_union_then_difference_witness :
  let t := [Api.mk_row 1 (lit "a.jpg") (lit "a.jpg") None None None None] in
  ∃ t' r' new,
    Api.db_update_photo_tags elements t 1 (Some [lit "x"]) (Some [lit "x"])
    = (Ok true, t')
    ∧ List.find (fun r => Z.eqb (Api.row_id r) 1) t' = Some r'
    ∧ Api.row_tag_list r' = Ok new
    ∧ (list_to_set new : gset str)
      = (list_to_set [] ∪ list_to_set [lit "x"]) ∖ list_to_set [lit "x"].
Proof.
  intros t.
  apply (update_tags_union_then_difference elements t 1 (Some [lit "x"])
           (Some [lit "x"])
           (Api.mk_row 1 (lit "a.jpg") (lit "a.jpg") None None None None) []).
  - intros X. reflexivity.
  - reflexivity.
  - reflexivity.
  - constructor.
  - apply (bool_decide_unpack _). by vm_compute.
Defined.

Example update_add_x_remove_x_is_empty :
  Api.db_update_photo_tags elements
    [Api.mk_row 1 (lit "a.jpg") (lit "a.jpg") None None None None] 1
    (Some [lit "x"]) (Some [lit "x"])
  = (Ok true,
     [Api.mk_row 1 (lit "a.jpg") (lit "a.jpg") None None None
        (Some (lit "[]"))]).
Proof. reflexivity. Qed.

(** ** The invariant of the flat store *)














(** ** Counting distinct tags *)

Lemma elem_of_flat_map {A B} (f : A → list B) (l : list A) (x : B) :
  x ∈ flat_map f l ↔ ∃ y, y ∈ l ∧ x ∈ f y.
Proof.
  rewrite list_elem_of_In, in_flat_map. split; intros (y & H1 & H2); exists y.
  - by rewrite !list_elem_of_In.
  - by rewrite <- !list_elem_of_In.
Qed.

Lemma elem_of_filter_bool {A} (f : A → bool) (l : list A) (x : A) :
  x ∈ List.filter f l ↔ x ∈ l ∧ f x = true.
Proof. by rewrite !list_elem_of_In, filter_In. Qed.

Lemma NoDup_map_inj {A B} (f : A → B) (l : list A) (x y : A) :
  NoDup (map f l) → x ∈ l → y ∈ l → f x = f y → x = y.
Proof.
  induction l as [|a l IH]; simpl; [by rewrite elem_of_nil|].
  rewrite NoDup_cons, !elem_of_cons. intros [Ha Hl] [-> | Hx] [-> | Hy] E;
    try done.
  - exfalso. apply Ha. rewrite E. by apply (list_elem_of_fmap_2 f).
  - exfalso. apply Ha. rewrite <- E. by apply (list_elem_of_fmap_2 f).
  - by apply IH.
Qed.

Lemma remove_dups_map_length {A B C} `{EqDecision B, EqDecision C}
  (f : A → B) (g : A → C) (l : list A) :
  (∀ x y, x ∈ l → y ∈ l → (f x = f y ↔ g x = g y)) →
  length (remove_dups (map f l)) = length (remove_dups (map g l)).
Proof.
  induction l as [|a l IH]; intros H; [done|].
  assert (IH' : length (remove_dups (map f l)) = length (remove_dups (map g l))).
  { apply IH. intros x y Hx Hy. apply H; by apply list_elem_of_further. }
  assert (Hmem : f a ∈ map f l ↔ g a ∈ map g l).
  { split; intros Hin; apply list_elem_of_fmap in Hin as (y & E & Hy).
    - apply H in E; [|apply list_elem_of_here|by apply list_elem_of_further].
      rewrite E. by apply (list_elem_of_fmap_2 g).
    - apply H in E; [|apply list_elem_of_here|by apply list_elem_of_further].
      rewrite E. by apply (list_elem_of_fmap_2 f). }
  simpl. destruct (decide_rel elem_of (f a) (map f l)) as [Hf | Hf];
    destruct (decide_rel elem_of (g a) (map g l)) as [Hg | Hg];
    simpl; try lia; tauto.
Qed.

Lemma remove_dups_length_set (l : list str) :
  length (remove_dups l) = size (list_to_set l : gset str).
Proof.
  rewrite <- (size_list_to_set (C := gset str) (remove_dups l))
    by apply NoDup_remove_dups.
  f_equal. apply set_eq. intros x.
  by rewrite !elem_of_list_to_set, elem_of_remove_dups.
Qed.

(** ** The join-table filter *)

Lemma joined_spec db names i t :
  (i, t) ∈ Db.joined db names ↔
  i ∈ Db.images db ∧ t ∈ Db.tags db
  ∧ (Db.image_id i, Db.tag_id t) ∈ Db.image_tags db ∧ Db.name t ∈ names.
Proof.
  unfold Db.joined. rewrite elem_of_flat_map. split.
  - intros (i' & Hi' & H). apply elem_of_flat_map in H as ([a b] & Hit & H).
    simpl in H. destruct (Z.eqb_spec (Db.image_id i') a) as [Ea|];
      [|by apply elem_of_nil in H].
    apply elem_of_flat_map in H as (t' & Ht' & H).
    destruct (Z.eqb_spec b (Db.tag_id t')) as [Eb|]; simpl in H;
      [|by apply elem_of_nil in H].
    destruct (bool_decide (Db.name t' ∈ names)) eqn:En;
      [|by apply elem_of_nil in H].
    apply list_elem_of_singleton in H. injection H as -> ->.
    apply bool_decide_eq_true in En. subst a b. done.
  - intros (Hi & Ht & Hit & Hn). exists i. split; [done|].
    apply elem_of_flat_map. exists (Db.image_id i, Db.tag_id t).
    split; [done|]. simpl. rewrite Z.eqb_refl.
    apply elem_of_flat_map. exists t. split; [done|].
    rewrite Z.eqb_refl, bool_decide_eq_true_2 by done. apply list_elem_of_here.
Qed.

Lemma get_images_by_tags_nonempty db names :
  names ≠ [] →
  Db.get_images_by_tags db names
  = flat_map (fun g =>
      let group := List.filter (fun r => Z.eqb (Db.image_id r.1) g)
                     (Db.joined db names) in
      if (length (remove_dups (map (fun r => Db.tag_id r.2) group))
            =? length names)%nat
      then match group with r :: _ => [r.1] | [] => [] end
      else [])
      (remove_dups (map (fun r => Db.image_id r.1) (Db.joined db names))).
Proof. by destruct names. Qed.

(** ** The tag filter *)

(** C1 (the code departs from it): after the start-up on a new file the
    listing for the sample tag "пляж" reads nothing, although the first
    sample photo is stored with that tag ([json.dumps] wrote it as
    [\uXXXX] escapes, and the pattern is built from the raw tag); the
    listing for "beach" reads a photo whose tags are "Beach" and "summer",
    which do not include "beach"; and the join-table filter for the list
    ["New York", "New York"] returns nothing, although the stored image is
    linked to a tag of every requested name. *)
Theorem tag_filter_superset_fails :
  (Api.db_get_photos (Api.startup_event None)
     (Api.mk_PhotoFilter None None (Some [lit "пляж"]) None None) = Ok []
   ∧ ∃ r l, r ∈ Api.startup_event None ∧ Api.row_tag_list r = Ok l
            ∧ lit "пляж" ∈ l)
  ∧ (∃ p, Api.db_get_photos beach_table
            (Api.mk_PhotoFilter None None (Some [lit "beach"]) None None)
          = Ok [p]
          ∧ Api.photo_tags p = [lit "Beach"; lit "summer"]
          ∧ lit "beach" ∉ Api.photo_tags p)
  ∧ (∃ i, Db.images one_tagged_image = [i]
          ∧ (∀ n, n ∈ [lit "New York"; lit "New York"]
                  → linked one_tagged_image i n)
          ∧ Db.get_images_by_tags one_tagged_image
              [lit "New York"; lit "New York"] = []).
Proof.
  split; [|split].
  - split; [reflexivity|].
    eexists _, _. split; [apply list_elem_of_here|]. split; [reflexivity|].
    apply list_elem_of_further, list_elem_of_here.
  - eexists. split; [reflexivity|]. split; [reflexivity|].
    intros H. apply list_elem_of_In in H. vm_compute in H.
    intuition discriminate.
  - eexists. split; [reflexivity|]. split; [|reflexivity].
    intros n Hn. exists (Db.mk_tag 1 (lit "New York")).
    split; [apply list_elem_of_here|]. split.
    + apply elem_of_cons in Hn as [-> | Hn]; [done|].
      by apply list_elem_of_singleton in Hn as ->.
    + apply list_elem_of_here.
Qed.

(** ** The schema constraints hold in every state the class reaches *)

Lemma next_rowid_fresh ids : next_rowid ids ∉ ids.
Proof.
  assert (H : ∀ x, x ∈ ids → (x ≤ fold_right Z.max 0 ids)%Z).
  { induction ids as [|y ids IH]; intros x; [by rewrite elem_of_nil|].
    rewrite elem_of_cons. simpl. intros [-> | Hx]; [lia|].
    specialize (IH x Hx). lia. }
  intros Hin. apply H in Hin. unfold next_rowid in Hin. lia.
Qed.

Lemma NoDup_snoc {A} (l : list A) (x : A) : NoDup l → x ∉ l → NoDup (l ++ [x]).
Proof.
  intros Hl Hx. apply NoDup_app. split; [done|]. split.
  - intros y Hy Hy'. apply list_elem_of_singleton in Hy'. by subst.
  - apply NoDup_singleton.
Qed.

Lemma NoDup_map_filter {A B} (f : A → B) (p : A → bool) (l : list A) :
  NoDup (map f l) → NoDup (map f (List.filter p l)).
Proof.
  induction l as [|a l IH]; simpl; [done|].
  rewrite NoDup_cons. intros [Ha Hl]. destruct (p a); simpl; [|by apply IH].
  apply NoDup_cons. split; [|by apply IH].
  intros Hin. apply Ha. apply list_elem_of_fmap in Hin as (y & -> & Hy).
  apply elem_of_filter_bool in Hy as [Hy _]. by apply (list_elem_of_fmap_2 f).
Qed.

Lemma find_str_None {A} (f : A → str) (x : str) (l : list A) :
  List.find (fun a => str_eqb (f a) x) l = None → x ∉ map f l.
Proof.
  induction l as [|a l IH]; simpl; [intros _; apply not_elem_of_nil|].
  unfold str_eqb at 1. case_bool_decide as Hx; [discriminate|].
  intros Hfind. apply not_elem_of_cons. split; [congruence | by apply IH].
Qed.

Lemma db_wf_init : db_wf (Db.init None).
Proof. repeat split; apply NoDup_nil_2. Qed.

Lemma db_wf_add_image db file_path capture_date camera_model latitude longitude :
  db_wf db →
  db_wf (Db.add_image db file_path capture_date camera_model latitude
           longitude).2.
Proof.
  intros (Hi & Ht & Hn). unfold Db.add_image.
  destruct (existsb _ _); [done|]. repeat split; simpl; try done.
  rewrite map_app. simpl. apply NoDup_snoc; [done | apply next_rowid_fresh].
Qed.

Lemma db_wf_add_tag db tag_name : db_wf db → db_wf (Db.add_tag db tag_name).2.
Proof.
  intros (Hi & Ht & Hn). unfold Db.add_tag.
  destruct (List.find _ _) eqn:E; [done|]. repeat split; simpl; try done.
  - rewrite map_app. simpl. apply NoDup_snoc; [done | apply next_rowid_fresh].
  - rewrite map_app. simpl. apply NoDup_snoc; [done|].
    by apply find_str_None in E.
Qed.

Lemma db_wf_link_tag_to_image db image_id tag_id :
  db_wf db → db_wf (Db.link_tag_to_image db image_id tag_id).2.
Proof.
  intros H. unfold Db.link_tag_to_image.
  destruct (_ && _); [done|]. by destruct (existsb _ _).
Qed.

Lemma db_wf_delete_tag db tag_id : db_wf db → db_wf (Db.delete_tag db tag_id).2.
Proof.
  intros (Hi & Ht & Hn). repeat split; simpl; try done;
    by apply NoDup_map_filter.
Qed.

(* ===================================================================== *)
(** * Further properties of the flat store *)
(* ===================================================================== *)

Lemma db_add_sample_data_fold t :
  Api.db_add_sample_data t = fold_left sample_step Api.sample_photos t.
Proof. unfold Api.db_add_sample_data. reflexivity. Qed.

Lemma insert_photo_present t path filename date_taken location camera_model tags :
  path ∈ map Api.row_path t →
  Api.insert_photo t (path, filename, date_taken, location, camera_model, tags)
  = None.
Proof.
  intros H. unfold Api.insert_photo.
  by rewrite (proj2 (existsb_str_eqb Api.row_path path t) H).
Qed.

Lemma insert_photo_absent t path filename date_taken location camera_model tags :
  path ∉ map Api.row_path t →
  Api.insert_photo t (path, filename, date_taken, location, camera_model, tags)
  = Some (t ++ [Api.mk_row (next_rowid (map Api.row_id t)) path filename
                  (Some date_taken) (Some location) (Some camera_model)
                  (Some tags)]).
Proof.
  intros H. unfold Api.insert_photo.
  destruct (existsb _ t) eqn:E; [|done].
  by apply existsb_str_eqb in E.
Qed.

Section SampleData.

Abbreviation step := sample_step.

Lemma step_paths t s :
  s.1.1.1.1.1 ∈ map Api.row_path (step t s)
  ∧ ∀ p, p ∈ map Api.row_path t → p ∈ map Api.row_path (step t s).
Proof.
  destruct s as [[[[[p f] d] l] c] tags]. unfold sample_step. cbn [fst snd].
  destruct (decide (p ∈ map Api.row_path t)) as [Hin | Hout].
  - by rewrite insert_photo_present.
  - rewrite insert_photo_absent by done. rewrite map_app. simpl. split.
    + apply elem_of_app. right. apply list_elem_of_here.
    + intros q Hq. apply elem_of_app. by left.
Qed.

Lemma fold_step_paths samples : ∀ t,
  (∀ s, s ∈ samples →
        s.1.1.1.1.1 ∈ map Api.row_path (fold_left step samples t))
  ∧ ∀ p, p ∈ map Api.row_path t →
         p ∈ map Api.row_path (fold_left step samples t).
Proof.
  induction samples as [|s samples IH]; intros t; simpl.
  - split; [intros s Hs; by apply elem_of_nil in Hs | done].
  - destruct (IH (step t s)) as [IH1 IH2].
    destruct (step_paths t s) as [Hs Hmono]. split.
    + intros s' Hs'. apply elem_of_cons in Hs' as [-> | Hs']; auto.
    + auto.
Qed.

Lemma fold_step_present samples : ∀ t,
  (∀ s, s ∈ samples → s.1.1.1.1.1 ∈ map Api.row_path t) →
  fold_left step samples t = t.
Proof.
  induction samples as [|s samples IH]; intros t H; simpl; [done|].
  assert (Hs : step t s = t).
  { destruct s as [[[[[p f] d] l] c] tags]. unfold sample_step. cbn [fst snd].
    rewrite insert_photo_present; [done|].
    apply (H (p, f, d, l, c, tags)). apply list_elem_of_here. }
  rewrite Hs. apply IH. intros s' Hs'. apply H. by apply list_elem_of_further.
Qed.

Lemma fold_step_ids samples : ∀ t,
  NoDup (map Api.row_id t) → NoDup (map Api.row_path t) →
  NoDup (map Api.row_id (fold_left step samples t))
  ∧ NoDup (map Api.row_path (fold_left step samples t)).
Proof.
  induction samples as [|s samples IH]; intros t Hid Hpath; simpl; [done|].
  apply IH; destruct s as [[[[[p f] d] l] c] tags]; unfold sample_step; cbn [fst snd];
    (destruct (decide (p ∈ map Api.row_path t)) as [Hin | Hout];
     [by rewrite insert_photo_present
     |rewrite insert_photo_absent by done; rewrite map_app; simpl;
      apply NoDup_snoc; [done|]]).
  - apply next_rowid_fresh.
  - done.
Qed.

End SampleData.

(** X1: running the start-up again adds nothing: the sample photos are
    inserted once, later inserts of the same paths are passed over. *)
Theorem startup_event_idempotent (file : option Api.table) :
  Api.startup_event (Some (Api.startup_event file)) = Api.startup_event file.
Proof.
  unfold Api.startup_event. simpl Api.init_db at 1.
  rewrite (db_add_sample_data_fold (Api.db_add_sample_data _)).
  apply fold_step_present. intros s Hs.
  rewrite db_add_sample_data_fold.
  exact (proj1 (fold_step_paths Api.sample_photos _) s Hs).
Qed.

Lemma db_update_photo_tags_keys set_to_list t photo_id add_tags remove_tags :
  map Api.row_id
    (Api.db_update_photo_tags set_to_list t photo_id add_tags remove_tags).2
  = map Api.row_id t
  ∧ map Api.row_path
      (Api.db_update_photo_tags set_to_list t photo_id add_tags remove_tags).2
    = map Api.row_path t.
Proof.
  unfold Api.db_update_photo_tags.
  destruct (List.find _ t); [|done].
  destruct (Api.row_tag_list _); [|done]. simpl.
  rewrite !map_map. split; apply map_ext; intros r0;
    by destruct (Z.eqb (Api.row_id r0) photo_id).
Qed.

(** X2: the primary key and the UNIQUE path of [photos] hold after the
    start-up and after any tag update: no two rows share an id or a
    path. *)
Theorem table_wf_preserved (set_to_list : gset str → list str)
  (t : Api.table) (photo_id : Z) (add_tags remove_tags : option (list str)) :
  table_wf t →
  table_wf (Api.startup_event (Some t))
  ∧ table_wf
      (Api.db_update_photo_tags set_to_list t photo_id add_tags remove_tags).2.
Proof.
  intros [Hid Hpath]. split.
  - unfold Api.startup_event, table_wf. simpl Api.init_db.
    rewrite db_add_sample_data_fold. by apply fold_step_ids.
  - unfold table_wf.
    destruct (db_update_photo_tags_keys set_to_list t photo_id add_tags
                remove_tags) as [-> ->]. done.
Qed.

Lemma table_wf_preserved_witness :
  table_wf beach_table
  ∧ table_wf (Api.startup_event (Some beach_table))
  ∧ table_wf
      (Api.db_update_photo_tags elements beach_table 1 (Some [lit "x"]) None).2.
Proof.
  assert (H : table_wf beach_table).
  { split; apply (bool_decide_unpack _); by vm_compute. }
  split; [exact H|].
  exact (table_wf_preserved elements beach_table 1 (Some [lit "x"]) None H).
Defined.

(** ** Listing *)

Lemma photo_of_row_date r :
  tags_column_ok (Api.row_tags r) →
  match Api.row_date_taken r with
  | Some _ => ∃ p, Api.photo_of_row r = Ok p ∧ Api.photo_id p = Api.row_id r
  | None => Api.photo_of_row r = Raise ValidationError
  end.
Proof.
  intros Hr. destruct (row_tag_list_ok r Hr) as (l & Hl & _).
  unfold Api.photo_of_row. rewrite Hl. simpl.
  destruct (Api.row_date_taken r); [|done]. by eexists.
Qed.

Lemma select_where_sublist {column row} (value : column → row → option str)
  query (t : list row) r :
  r ∈ select_where value query t → r ∈ t.
Proof. unfold select_where. rewrite elem_of_filter_bool. tauto. Qed.

Lemma map_photo_of_row rows :
  Forall (fun r => tags_column_ok (Api.row_tags r)) rows →
  (Forall (fun r => Api.row_date_taken r ≠ None) rows →
   ∃ photos, map_result Api.photo_of_row rows = Ok photos
             ∧ map Api.photo_id photos = map Api.row_id rows)
  ∧ (Exists (fun r => Api.row_date_taken r = None) rows →
     map_result Api.photo_of_row rows = Raise ValidationError).
Proof.
  induction 1 as [|r rows Hr _ IH]; simpl.
  - split; [intros _; by exists [] | intros H; inversion H].
  - pose proof (photo_of_row_date r Hr) as Hp. destruct IH as [IH1 IH2]. split.
    + intros Hall. inversion_clear Hall as [|? ? Hd Hrest].
      destruct (Api.row_date_taken r); [|done].
      destruct Hp as (p & -> & Hid). destruct (IH1 Hrest) as (ps & -> & Hids).
      exists (p :: ps). simpl. by rewrite Hid, Hids.
    + intros Hex. destruct (Api.row_date_taken r) eqn:Ed.
      * destruct Hp as (p & -> & _). inversion_clear Hex as [? ? Hd|? ? Hrest];
          [congruence|]. by rewrite (IH2 Hrest).
      * by rewrite Hp.
Qed.

(** X3: on a table whose [tags] columns are valid, a listing whose query
    is within the limits of the engine fails only through a NULL
    [date_taken]: when every selected row has a date it returns one photo
    per selected row, in order; when some selected row has none it raises
    the validation error of the [Photo] model.  A query of more than 998
    terms raises the engine's error. *)
Theorem db_get_photos_null_date (t : Api.table) (filters : Api.PhotoFilter) :
  table_ok t →
  (within_limits (Api.build_query filters) →
   (Forall (fun r => Api.row_date_taken r ≠ None)
      (select_where Api.value (Api.build_query filters) t) →
    ∃ photos, Api.db_get_photos t filters = Ok photos
              ∧ map Api.photo_id photos
                = map Api.row_id
                    (select_where Api.value (Api.build_query filters) t))
   ∧ (Exists (fun r => Api.row_date_taken r = None)
        (select_where Api.value (Api.build_query filters) t) →
      Api.db_get_photos t filters = Raise ValidationError))
  ∧ ((998 < length (Api.build_query filters))%nat →
     Api.db_get_photos t filters = Raise OperationalError).
Proof.
  intros Ht. split.
  - intros Hlim. unfold Api.db_get_photos. rewrite fetchall_within by done.
    apply map_photo_of_row. apply Forall_forall. intros r Hr.
    apply select_where_sublist in Hr.
    by eapply Forall_forall in Hr; [|exact Ht].
  - intros Hlen. unfold Api.db_get_photos, fetchall.
    replace (SQLITE_MAX_EXPR_DEPTH <? _) with true; [done|].
    symmetry. apply N.ltb_lt. unfold SQLITE_MAX_EXPR_DEPTH. lia.
Qed.

Lemma db_get_photos_null_date_witness :
  table_ok beach_table
  ∧ (∃ photos, Api.db_get_photos beach_table
                 (Api.mk_PhotoFilter None None None None None) = Ok photos
               ∧ map Api.photo_id photos = [1%Z])
  ∧ Api.db_get_photos
      [Api.mk_row 1 (lit "a.jpg") (lit "a.jpg") None None None None]
      (Api.mk_PhotoFilter None None None None None)
    = Raise ValidationError.
Proof.
  assert (Ht : table_ok beach_table).
  { constructor; [|constructor]. exists [lit "Beach"; lit "summer"].
    split; [reflexivity|]. apply (bool_decide_unpack _). by vm_compute. }
  assert (Hn : table_ok
                 [Api.mk_row 1 (lit "a.jpg") (lit "a.jpg") None None None None]).
  { by repeat constructor. }
  assert (Hlim : within_limits
                   (Api.build_query
                      (Api.mk_PhotoFilter None None None None None))).
  { split; [by vm_compute | constructor]. }
  split; [exact Ht|]. split.
  - apply (proj1 (proj1 (db_get_photos_null_date beach_table
                    (Api.mk_PhotoFilter None None None None None) Ht) Hlim)).
    by repeat constructor.
  - apply (proj2 (proj1 (db_get_photos_null_date _
                    (Api.mk_PhotoFilter None None None None None) Hn) Hlim)).
    by constructor.
Defined.

Lemma truthy_unset {A} (o : option (list A)) : unset o → truthy o = None.
Proof. by intros [-> | ->]. Qed.

(** X4: filters that are absent or empty do not restrict the listing:
    the query has no clause and every row is read (an empty string or an
    empty tag list counts as no filter). *)
Theorem db_get_photos_unset_filters (t : Api.table) (filters : Api.PhotoFilter) :
  unset (Api.date_from filters) → unset (Api.date_to filters) →
  unset (Api.filter_tags filters) → unset (Api.filter_location filters) →
  unset (Api.filter_camera_model filters) →
  Api.db_get_photos t filters = map_result Api.photo_of_row t.
Proof.
  intros H1 H2 H3 H4 H5.
  assert (Hq : Api.build_query filters = []).
  { unfold Api.build_query. by rewrite !truthy_unset. }
  unfold Api.db_get_photos. rewrite Hq.
  rewrite fetchall_within by (split; [by vm_compute | constructor]).
  unfold select_where. simpl.
  f_equal. induction t as [|r t IH]; simpl; congruence.
Qed.

Lemma db_get_photos_unset_filters_witness :
  Api.db_get_photos beach_table
    (Api.mk_PhotoFilter (Some []) None (Some []) (Some []) None)
  = map_result Api.photo_of_row beach_table.
Proof.
  apply db_get_photos_unset_filters; simpl; (by left) || (by right).
Defined.

Lemma pattern_compare_all_percent x v :
  Forall (fun c => c = 37) x → x ≠ [] → pattern_compare x v = true.
Proof.
  intros Hx. revert v. induction Hx as [|c x -> Hx IH]; intros v Hne; [done|].
  apply pattern_compare_percent. destruct x as [|c' x].
  - exists v, []. by rewrite app_nil_r.
  - exists [], v. split; [done|]. by apply IH.
Qed.

Lemma like_all_percent x v : Forall (fun c => c = 37) x → x ≠ [] → like x v = true.
Proof.
  intros Hx Hne. unfold like. rewrite (c_string_id x).
  - by apply pattern_compare_all_percent.
  - intros H0. eapply Forall_forall in Hx; [|exact H0]. discriminate.
Qed.

(** X5: a location filter made only of [%] characters selects exactly
    the rows whose location is not NULL: the wildcard matches every
    value, and a NULL column matches no pattern. *)
Theorem location_percent_filter (t : Api.table) (x : str) (r : Api.row) :
  Forall (fun c => c = 37) x → x ≠ [] →
  r ∈ select_where Api.value
        (Api.build_query (Api.mk_PhotoFilter None None None (Some x) None)) t
  ↔ r ∈ t ∧ Api.row_location r ≠ None.
Proof.
  intros Hx Hne. unfold select_where. rewrite elem_of_filter_bool.
  apply and_iff_compat_l. rewrite photo_query_spec.
  destruct x as [|c x]; [done|]. unfold photo_filter_holds.
  cbn [Api.date_from Api.date_to Api.filter_location Api.filter_camera_model
       Api.filter_tags truthy].
  split.
  - intros (_ & _ & H & _). by destruct (H _ eq_refl) as (v & -> & _).
  - intros Hl. repeat split; try discriminate. intros x0 [= <-].
    destruct (Api.row_location r) as [v|]; [|done].
    exists v. split; [done|]. apply like_all_percent; [|done].
    unfold Api.percent. constructor; [done|]. apply Forall_app.
    split; [done | by repeat constructor].
Qed.

Lemma location_percent_filter_witness :
  let r := Api.mk_row 2 (lit "b.jpg") (lit "b.jpg") None (Some (lit "Kyiv"))
             None None in
  r ∈ select_where Api.value
        (Api.build_query
           (Api.mk_PhotoFilter None None None (Some (lit "%")) None))
        (beach_table ++ [r])
  ↔ r ∈ beach_table ++ [r] ∧ Api.row_location r ≠ None.
Proof.
  intros r. apply location_percent_filter; [|discriminate].
  by repeat constructor.
Defined.

(** ** Tags outside ASCII *)

Lemma pattern_compare_literal_char pat : ∀ s p,
  pattern_compare pat s = true → p ∈ pat → p ≠ 37 → p ≠ 95 →
  ∃ c, c ∈ s ∧ tolower p = tolower c.
Proof.
  induction pat as [|q pat IH]; intros s p Hlike Hp H37 H95;
    [by apply elem_of_nil in Hp|].
  destruct (N.eqb_spec q 37) as [-> | Hq].
  - apply pattern_compare_percent in Hlike as (pre & post & -> & Hlike).
    apply elem_of_cons in Hp as [-> | Hp]; [done|].
    destruct (IH post p Hlike Hp H37 H95) as (c & Hc & E).
    exists c. split; [|done]. apply elem_of_app. by right.
  - cbn [pattern_compare] in Hlike.
    rewrite (proj2 (N.eqb_neq q 37) Hq) in Hlike.
    destruct s as [|c s]; [discriminate|].
    apply andb_true_iff in Hlike as [Hc Hlike].
    apply elem_of_cons in Hp as [-> | Hp].
    + rewrite (proj2 (N.eqb_neq q 95) H95) in Hc. simpl in Hc.
      apply N.eqb_eq in Hc. exists c. split; [apply list_elem_of_here | done].
    + destruct (IH s p Hlike Hp H37 H95) as (c' & Hc' & E).
      exists c'. split; [by apply list_elem_of_further | done].
Qed.

Lemma hex_digit_ascii d : d < 16 → hex_digit d ≤ 126.
Proof. intros H. unfold hex_digit. destruct (d <? 10); lia. Qed.

Lemma hex4_ascii n : Forall (fun k => k ≤ 126) (hex4 n).
Proof.
  unfold hex4. repeat constructor; apply hex_digit_ascii, N.mod_lt; lia.
Qed.

Lemma escape_char_ascii c : Forall (fun k => k ≤ 126) (escape_char c).
Proof.
  unfold escape_char.
  repeat (match goal with
          | |- context [if ?b then _ else _] => destruct b eqn:?
          end; [by repeat constructor|]).
  destruct ((32 <=? c) && (c <=? 126)) eqn:E.
  - apply andb_true_iff in E as [_ E]. apply N.leb_le in E. by repeat constructor.
  - destruct (c <? 65536).
    + repeat (constructor; [done|]). apply hex4_ascii.
    + cbv zeta. apply Forall_app. split;
        repeat (constructor; [done|]); apply hex4_ascii.
Qed.

Lemma join_Forall (P : N → Prop) sep parts :
  Forall P sep → Forall (Forall P) parts → Forall P (join sep parts).
Proof.
  intros Hsep. induction 1 as [|p parts Hp Hparts IH]; [constructor|].
  destruct parts as [|q parts]; [done|].
  change (join sep (p :: q :: parts)) with (p ++ sep ++ join sep (q :: parts)).
  by rewrite !Forall_app.
Qed.

(** The text [json.dumps] writes is ASCII. *)
Lemma dumps_ascii l : Forall (fun k => k ≤ 126) (dumps l).
Proof.
  unfold dumps. constructor; [done|]. apply Forall_app.
  split; [|by repeat constructor].
  apply join_Forall; [by repeat constructor|].
  apply Forall_fmap, Forall_forall. intros s _.
  unfold encode_basestring_ascii. simpl. constructor; [done|].
  apply Forall_app. split; [|by repeat constructor].
  unfold escape. induction s as [|c s IH]; simpl; [constructor|].
  apply Forall_app. split; [apply escape_char_ascii | done].
Qed.

Lemma filter_none {A} (f : A → bool) (l : list A) :
  (∀ x, x ∈ l → f x = false) → List.filter f l = [].
Proof.
  induction l as [|x l IH]; intros H; simpl; [done|].
  rewrite (H x) by apply list_elem_of_here.
  apply IH. intros y Hy. apply H. by apply list_elem_of_further.
Qed.

(** X6: on rows whose [tags] column is NULL or was written by
    [json.dumps], a listing within the limits of the engine that requests
    a tag holding a character outside ASCII (and no U+0000) returns no
    photo, whatever the stored tags: the column text is ASCII, and the
    pattern is built from the raw tag. *)
Theorem non_ascii_tag_filter_reads_nothing (t : Api.table)
  (filters : Api.PhotoFilter) (requested : list str) (a : str) (c : N) :
  Forall (fun r => Api.row_tags r = None
                   ∨ ∃ l, Api.row_tags r = Some (dumps l)) t →
  within_limits (Api.build_query filters) →
  Api.filter_tags filters = Some requested → a ∈ requested →
  0 ∉ a → c ∈ a → 128 ≤ c →
  Api.db_get_photos t filters = Ok [].
Proof.
  intros Ht Hlim Hf Ha H0 Hc H128. unfold Api.db_get_photos.
  rewrite fetchall_within by done. unfold select_where.
  rewrite filter_none; [done|]. intros r Hr.
  apply not_true_is_false. rewrite photo_query_spec.
  intros (_ & _ & _ & _ & H).
  assert (Htr : truthy (Api.filter_tags filters) = Some requested).
  { rewrite Hf. destruct requested; [by apply elem_of_nil in Ha | done]. }
  destruct (H requested a Htr Ha) as (v & Hv & Hlike).
  eapply Forall_forall in Hr; [|exact Ht].
  destruct Hr as [Hr | (l & Hr)]; [congruence|].
  rewrite Hr in Hv. injection Hv as <-.
  unfold like in Hlike. rewrite (c_string_id (Api.tag_pattern a)) in Hlike.
  2:{ unfold Api.tag_pattern.
      rewrite !not_elem_of_cons, not_elem_of_app, !not_elem_of_cons.
      repeat split; try done. apply not_elem_of_nil. }
  destruct (pattern_compare_literal_char _ _ c Hlike) as (k & Hk & E).
  - unfold Api.tag_pattern. do 2 apply list_elem_of_further.
    apply elem_of_app. by left.
  - lia.
  - lia.
  - pose proof (c_string_Forall _ _ (dumps_ascii l)) as Hascii.
    eapply Forall_forall in Hascii; [|exact Hk].
    unfold tolower in E.
    destruct ((65 <=? c) && (c <=? 90)) eqn:E1.
    { apply andb_true_iff in E1 as [_ E1]. apply N.leb_le in E1. lia. }
    destruct ((65 <=? k) && (k <=? 90)) eqn:E2; [|lia].
    apply andb_true_iff in E2 as [_ E2]. apply N.leb_le in E2. lia.
Qed.

Lemma non_ascii_tag_filter_reads_nothing_witness :
  Api.db_get_photos (Api.startup_event None)
    (Api.mk_PhotoFilter None None (Some [lit "пляж"]) None None) = Ok [].
Proof.
  apply (non_ascii_tag_filter_reads_nothing (Api.startup_event None)
           (Api.mk_PhotoFilter None None (Some [lit "пляж"]) None None)
           [lit "пляж"] (lit "пляж") 1087).
  - repeat (constructor; [right; eexists; reflexivity|]). constructor.
  - split; [by vm_compute | by repeat constructor].
  - reflexivity.
  - apply list_elem_of_here.
  - intros H. apply list_elem_of_In in H. vm_compute in H.
    intuition discriminate.
  - vm_compute. apply list_elem_of_here.
  - vm_compute. discriminate.
Defined.

(** ** Tag updates compose as set operations *)

Lemma stored_tags_update (set_to_list : gset str → list str)
  (t : Api.table) (photo_id : Z) (add_tags remove_tags : option (list str))
  (X : gset str) :
  (∀ X, set_to_list X ≡ₚ elements X) →
  stored_tags t photo_id = Some X → (∀ x, x ∈ X → scalar_str x) →
  Forall scalar_str (tag_list add_tags) →
  (Api.db_update_photo_tags set_to_list t photo_id add_tags remove_tags).1
  = Ok true
  ∧ stored_tags
      (Api.db_update_photo_tags set_to_list t photo_id add_tags remove_tags).2
      photo_id
    = Some ((X ∪ list_to_set (tag_list add_tags))
              ∖ list_to_set (tag_list remove_tags)).
Proof.
  intros Hperm Hst HX Hadd. unfold stored_tags in Hst.
  destruct (List.find _ t) as [r|] eqn:Hfind; [|done].
  destruct (Api.row_tag_list r) as [old|] eqn:Hold; [|done].
  injection Hst as <-.
  rewrite (db_update_photo_tags_found set_to_list Hperm t photo_id add_tags
             remove_tags r old Hfind Hold).
  split; [done|]. simpl. unfold stored_tags.
  set (Y := ((list_to_set old ∪ list_to_set (tag_list add_tags))
               ∖ list_to_set (tag_list remove_tags) : gset str)).
  rewrite (find_map_update Api.row_id
             (fun r => Api.mk_row (Api.row_id r) (Api.row_path r)
                (Api.row_filename r) (Api.row_date_taken r)
                (Api.row_location r) (Api.row_camera_model r)
                (Some (dumps (set_to_list Y)))) photo_id t r); [|done|done].
  rewrite (row_tag_list_dumps _ (set_to_list Y)); [|done|].
  - by rewrite set_to_list_set.
  - apply set_to_list_scalar; [done|]. intros x Hx.
    apply elem_of_difference in Hx as [Hx _].
    apply elem_of_union in Hx as [Hx | Hx]; [by apply HX|].
    apply elem_of_list_to_set in Hx. by eapply Forall_forall in Hadd.
Qed.

(** X7: a tag update is idempotent on the stored tag set: repeating the
    same update (same lists to add and to remove) leaves the set the
    first one stored. *)
Theorem update_tags_twice (set_to_list : gset str → list str)
  (t : Api.table) (photo_id : Z) (add_tags remove_tags : option (list str))
  (X : gset str) :
  (∀ X, set_to_list X ≡ₚ elements X) →
  stored_tags t photo_id = Some X → (∀ x, x ∈ X → scalar_str x) →
  Forall scalar_str (tag_list add_tags) →
  let t1 :=
    (Api.db_update_photo_tags set_to_list t photo_id add_tags remove_tags).2 in
  let t2 :=
    (Api.db_update_photo_tags set_to_list t1 photo_id add_tags remove_tags).2 in
  stored_tags t2 photo_id = stored_tags t1 photo_id.
Proof.
  intros Hperm Hst HX Hadd t1 t2.
  destruct (stored_tags_update set_to_list t photo_id add_tags remove_tags X
              Hperm Hst HX Hadd) as [_ H1].
  fold t1 in H1.
  destruct (stored_tags_update set_to_list t1 photo_id add_tags remove_tags _
              Hperm H1) as [_ H2]; [|done|].
  - intros x Hx. apply elem_of_difference in Hx as [Hx _].
    apply elem_of_union in Hx as [Hx | Hx]; [by apply HX|].
    apply elem_of_list_to_set in Hx. by eapply Forall_forall in Hadd.
  - fold t2 in H2. rewrite H1, H2. f_equal. set_solver.
Qed.

Lemma beach_table_stored :
  stored_tags beach_table 1 = Some (list_to_set [lit "Beach"; lit "summer"]).
Proof. reflexivity. Qed.

Lemma beach_tags_scalar (x : str) :
  x ∈ (list_to_set [lit "Beach"; lit "summer"] : gset str) → scalar_str x.
Proof.
  intros Hx. apply elem_of_list_to_set in Hx.
  assert (H : Forall scalar_str [lit "Beach"; lit "summer"]).
  { apply (bool_decide_unpack _). by vm_compute. }
  by eapply Forall_forall in H.
Qed.

Lemma update_tags_twice_witness :
  let t1 := (Api.db_update_photo_tags elements beach_table 1
               (Some [lit "sea"]) (Some [lit "summer"])).2 in
  let t2 := (Api.db_update_photo_tags elements t1 1
               (Some [lit "sea"]) (Some [lit "summer"])).2 in
  stored_tags t2 1 = stored_tags t1 1.
Proof.
  apply (update_tags_twice elements beach_table 1 (Some [lit "sea"])
           (Some [lit "summer"]) (list_to_set [lit "Beach"; lit "summer"])).
  - intros X. reflexivity.
  - exact beach_table_stored.
  - exact beach_tags_scalar.
  - apply (bool_decide_unpack _). by vm_compute.
Defined.

Lemma delete_photo_tags_stored (set_to_list : gset str → list str)
  (t : Api.table) (photo_id : Z) (tags_to_delete : list str) (X : gset str) :
  (∀ X, set_to_list X ≡ₚ elements X) →
  stored_tags t photo_id = Some X → (∀ x, x ∈ X → scalar_str x) →
  (Api.delete_photo_tags set_to_list t photo_id tags_to_delete).1
  = Ok (Api.tags_removed photo_id)
  ∧ stored_tags (Api.delete_photo_tags set_to_list t photo_id tags_to_delete).2
      photo_id
    = Some (X ∖ list_to_set tags_to_delete).
Proof.
  intros Hperm Hst HX.
  destruct (stored_tags_update set_to_list t photo_id None (Some tags_to_delete)
              X Hperm Hst HX) as [H1 H2]; [constructor|].
  unfold Api.delete_photo_tags.
  destruct (Api.db_update_photo_tags set_to_list t photo_id None
              (Some tags_to_delete)) as [res t'].
  simpl in H1, H2. subst res. simpl. split; [done|].
  rewrite H2. f_equal. simpl. set_solver.
Qed.

(** X8: on a stored photo, the DELETE endpoint answers with its success
    message and stores the old tag set minus the listed tags; tags that
    were not present are no error. *)
Theorem delete_photo_tags_removes (set_to_list : gset str → list str)
  (t : Api.table) (photo_id : Z) (tags_to_delete : list str) (X : gset str) :
  (∀ X, set_to_list X ≡ₚ elements X) →
  stored_tags t photo_id = Some X → (∀ x, x ∈ X → scalar_str x) →
  (Api.delete_photo_tags set_to_list t photo_id tags_to_delete).1
  = Ok (Api.tags_removed photo_id)
  ∧ stored_tags (Api.delete_photo_tags set_to_list t photo_id tags_to_delete).2
      photo_id
    = Some (X ∖ list_to_set tags_to_delete).
Proof. apply delete_photo_tags_stored. Qed.

Lemma delete_photo_tags_removes_witness :
  (Api.delete_photo_tags elements beach_table 1 [lit "summer"; lit "snow"]).1
  = Ok (Api.tags_removed 1)
  ∧ stored_tags
      (Api.delete_photo_tags elements beach_table 1
         [lit "summer"; lit "snow"]).2 1
    = Some (list_to_set [lit "Beach"; lit "summer"]
              ∖ list_to_set [lit "summer"; lit "snow"]).
Proof.
  apply (delete_photo_tags_removes elements beach_table 1
           [lit "summer"; lit "snow"]).
  - intros X. reflexivity.
  - exact beach_table_stored.
  - exact beach_tags_scalar.
Defined.

(** X9: adding tags the photo did not have (PUT) and then deleting the
    same tags (DELETE) restores the stored tag set. *)
Theorem add_then_delete_restores (set_to_list : gset str → list str)
  (t : Api.table) (photo_id : Z) (new_tags : list str) (X : gset str) :
  (∀ X, set_to_list X ≡ₚ elements X) →
  stored_tags t photo_id = Some X → (∀ x, x ∈ X → scalar_str x) →
  Forall scalar_str new_tags → (∀ x, x ∈ new_tags → x ∉ X) →
  let t1 := (Api.update_photo_tags set_to_list t photo_id
               (Api.mk_TagUpdate (Some new_tags) None)).2 in
  let t2 := (Api.delete_photo_tags set_to_list t1 photo_id new_tags).2 in
  stored_tags t2 photo_id = Some X.
Proof.
  intros Hperm Hst HX Hnew Hfresh t1 t2.
  destruct (stored_tags_update set_to_list t photo_id (Some new_tags) None
              X Hperm Hst HX Hnew) as [H1 H2].
  assert (Ht1 : stored_tags t1 photo_id = Some (X ∪ list_to_set new_tags)).
  { unfold t1, Api.update_photo_tags. simpl.
    destruct (Api.db_update_photo_tags set_to_list t photo_id (Some new_tags)
                None) as [res t']. simpl in H1, H2. subst res. simpl.
    rewrite H2. f_equal. simpl. set_solver. }
  destruct (delete_photo_tags_stored set_to_list t1 photo_id new_tags _
              Hperm Ht1) as [_ H3].
  - intros x Hx. apply elem_of_union in Hx as [Hx | Hx]; [by apply HX|].
    apply elem_of_list_to_set in Hx. by eapply Forall_forall in Hnew.
  - fold t2 in H3. rewrite H3. f_equal. apply set_eq. intros x.
    rewrite elem_of_difference, elem_of_union, !elem_of_list_to_set.
    split; [intros [[?|?] ?]; tauto|].
    intros Hx. split; [by left|]. intros Hn. by apply (Hfresh x).
Qed.

Lemma add_then_delete_restores_witness :
  let t1 := (Api.update_photo_tags elements beach_table 1
               (Api.mk_TagUpdate (Some [lit "sea"; lit "sand"]) None)).2 in
  let t2 := (Api.delete_photo_tags elements t1 1 [lit "sea"; lit "sand"]).2 in
  stored_tags t2 1 = Some (list_to_set [lit "Beach"; lit "summer"]).
Proof.
  apply (add_then_delete_restores elements beach_table 1
           [lit "sea"; lit "sand"] (list_to_set [lit "Beach"; lit "summer"])).
  - intros X. reflexivity.
  - exact beach_table_stored.
  - exact beach_tags_scalar.
  - apply (bool_decide_unpack _). by vm_compute.
  - intros x Hx. apply (bool_decide_unpack _).
    apply elem_of_cons in Hx as [-> | Hx]; [by vm_compute|].
    apply list_elem_of_singleton in Hx as ->. by vm_compute.
Defined.

(* ===================================================================== *)
(** * Further properties of the normalized store *)
(* ===================================================================== *)

Lemma find_app_first {A} (f : A → bool) (l k : list A) :
  List.find f (l ++ k)
  = match List.find f l with
    | Some x => Some x
    | None => List.find f k
    end.
Proof. induction l as [|a l IH]; simpl; [done|]. by destruct (f a). Qed.

Lemma find_Z_fresh {A} (f : A → Z) (l : list A) (x : A) :
  f x ∉ map f l → List.find (fun a => Z.eqb (f a) (f x)) (l ++ [x]) = Some x.
Proof.
  intros H. rewrite find_app_first, (find_Z_None f (f x) l H). simpl.
  by rewrite Z.eqb_refl.
Qed.

(** X10: [add_tag] is get-or-create: it always returns an id, a tag of
    that id and name is stored afterwards, and calling it again with the
    same name returns the same id and changes nothing. *)
Theorem add_tag_get_or_create (db : Db.DatabaseManager) (tag_name : str) :
  ∃ id,
    (Db.add_tag db tag_name).1 = Some id
    ∧ Db.mk_tag id tag_name ∈ Db.tags (Db.add_tag db tag_name).2
    ∧ Db.add_tag (Db.add_tag db tag_name).2 tag_name
      = (Some id, (Db.add_tag db tag_name).2).
Proof.
  unfold Db.add_tag at 1 2 4.
  destruct (List.find (fun t => str_eqb (Db.name t) tag_name) (Db.tags db))
    as [t|] eqn:Hfind.
  - exists (Db.tag_id t). simpl. apply find_elem_of in Hfind as Ht.
    destruct Ht as [Ht Hname]. unfold str_eqb in Hname.
    apply bool_decide_eq_true in Hname. split; [done|]. split.
    + destruct t as [i n]. simpl in *. by subst.
    + unfold Db.add_tag. by rewrite Hfind.
  - exists (next_rowid (map Db.tag_id (Db.tags db))). simpl.
    split; [done|]. split.
    + apply elem_of_app. right. apply list_elem_of_here.
    + unfold Db.add_tag. simpl. rewrite find_app_first, Hfind. simpl.
      unfold str_eqb. by rewrite bool_decide_eq_true_2.
Qed.

(** X11: an image that [add_image] stored is found by
    [get_image_by_id] under the id returned, with the path, date and
    camera model given and with what a REAL column keeps of the two
    floats: a NaN comes back as [None], [-0.0] as [0.0], and every other
    float as it was given; the lookup of every other id is as before. *)
Theorem add_image_then_get (db db' : Db.DatabaseManager)
  (file_path capture_date : str) (camera_model : option str)
  (latitude longitude : option Db.real) (id : Z) :
  Db.add_image db file_path capture_date camera_model latitude longitude
  = (Some id, db') →
  int64 id →
  Db.get_image_by_id db' id
  = Some (Db.mk_image id file_path (Some capture_date) camera_model
            (Db.stored_real latitude) (Db.stored_real longitude))
  ∧ (∀ x, is_nan x = true → Db.stored_real (Some x) = None)
  ∧ Db.stored_real (Some 9223372036854775808) = Some 0
  ∧ (∀ x, is_nan x = false → x ≠ 9223372036854775808 →
          Db.stored_real (Some x) = Some x)
  ∧ ∀ other, int64 other → other ≠ id →
             Db.get_image_by_id db' other = Db.get_image_by_id db other.
Proof.
  unfold Db.add_image. destruct (existsb _ _); [discriminate|].
  intros [= <- <-] _. unfold Db.get_image_by_id. simpl.
  split; [|split; [|split; [|split]]].
  - apply (find_Z_fresh Db.image_id (Db.images db)
             (Db.mk_image _ file_path (Some capture_date) camera_model
                (Db.stored_real latitude) (Db.stored_real longitude))).
    apply next_rowid_fresh.
  - intros x Hx. unfold store_real. by rewrite Hx.
  - reflexivity.
  - intros x Hx Hne. unfold store_real. rewrite Hx.
    by rewrite (proj2 (N.eqb_neq _ _) Hne).
  - intros other _ Hne. rewrite find_app_first.
    destruct (List.find _ (Db.images db)); [done|]. simpl.
    destruct (Z.eqb_spec (next_rowid (map Db.image_id (Db.images db))) other);
      [congruence | done].
Qed.

Lemma add_image_then_get_witness :
  Db.get_image_by_id
    (Db.add_image one_tagged_image (lit "/path/to/img2.png")
       (lit "2023-01-20 14:30:00") (Some (lit "Sony Alpha A7 III"))
       (Some 9223372036854775808) (Some 9221120237041090560)).2
    2
  = Some (Db.mk_image 2 (lit "/path/to/img2.png")
            (Some (lit "2023-01-20 14:30:00")) (Some (lit "Sony Alpha A7 III"))
            (Some 0) None).
Proof.
  refine (proj1 (add_image_then_get one_tagged_image _ (lit "/path/to/img2.png")
                   (lit "2023-01-20 14:30:00") (Some (lit "Sony Alpha A7 III"))
                   (Some 9223372036854775808) (Some 9221120237041090560)
                   2 _ _)).
  - reflexivity.
  - unfold int64. lia.
Defined.

(** ** [ORDER BY name] *)

Lemma str_leb_total a : ∀ b, str_leb a b = false → str_leb b a = true.
Proof.
  induction a as [|x a IH]; intros [|y b]; simpl; try done.
  rewrite orb_false_iff, andb_false_iff, N.ltb_ge.
  intros [Hxy H]. destruct (N.ltb_spec y x) as [|Hyx]; [done|]. simpl.
  assert (x = y) as -> by lia. rewrite N.eqb_refl in H |- *. simpl.
  destruct H as [H | H]; [discriminate | by apply IH].
Qed.

Lemma str_leb_trans a : ∀ b c,
  str_leb a b = true → str_leb b c = true → str_leb a c = true.
Proof.
  induction a as [|x a IH]; intros [|y b] [|z c]; simpl; try done.
  rewrite !orb_true_iff, !andb_true_iff, !N.ltb_lt, !N.eqb_eq.
  intros [Hxy | [-> Hab]] [Hyz | [-> Hbc]].
  - left. lia.
  - by left.
  - by left.
  - right. split; [done | by eapply IH].
Qed.

Lemma insert_by_perm {A} (key : A → str) (x : A) (l : list A) :
  insert_by key x l ≡ₚ x :: l.
Proof.
  induction l as [|y l IH]; simpl; [done|].
  destruct (str_leb (key x) (key y)); [done|].
  rewrite IH. apply Permutation_swap.
Qed.

Lemma order_by_perm {A} (key : A → str) (l : list A) : order_by key l ≡ₚ l.
Proof.
  induction l as [|x l IH]; simpl; [done|].
  by rewrite insert_by_perm, IH.
Qed.

Lemma insert_by_sorted {A} (key : A → str) (x : A) (l : list A) :
  StronglySorted (fun a b => str_leb (key a) (key b) = true) l →
  StronglySorted (fun a b => str_leb (key a) (key b) = true) (insert_by key x l).
Proof.
  induction 1 as [|y l Hl IH Hy]; simpl; [by repeat constructor|].
  destruct (str_leb (key x) (key y)) eqn:E.
  - constructor; [by constructor|]. constructor; [done|].
    eapply Forall_impl; [exact Hy|]. intros z Hz. simpl in Hz.
    by eapply str_leb_trans.
  - constructor; [done|]. rewrite insert_by_perm. constructor; [|done].
    by apply str_leb_total.
Qed.

Lemma order_by_sorted {A} (key : A → str) (l : list A) :
  StronglySorted (fun a b => str_leb (key a) (key b) = true) (order_by key l).
Proof.
  induction l as [|x l IH]; simpl; [constructor | by apply insert_by_sorted].
Qed.

(** X12: [get_all_tags] lists every stored tag once, in ascending order
    of name; [get_tags_for_image] is ordered the same way. *)
Theorem get_all_tags_sorted (db : Db.DatabaseManager) (image_id : Z) :
  Db.get_all_tags db ≡ₚ Db.tags db
  ∧ StronglySorted (fun a b => str_leb (Db.name a) (Db.name b) = true)
      (Db.get_all_tags db)
  ∧ StronglySorted (fun a b => str_leb (Db.name a) (Db.name b) = true)
      (Db.get_tags_for_image db image_id).
Proof.
  split; [apply order_by_perm|]. split; apply order_by_sorted.
Qed.

(** ** Links *)

Lemma existsb_link (l : list (Z * Z)) (i t : Z) :
  existsb (fun it => Z.eqb it.1 i && Z.eqb it.2 t) l = true ↔ (i, t) ∈ l.
Proof.
  rewrite existsb_exists. split.
  - intros ([a b] & Hin & H). simpl in H.
    apply andb_true_iff in H as [Ha Hb].
    apply Z.eqb_eq in Ha, Hb. subst. by apply list_elem_of_In.
  - intros H. exists (i, t). rewrite <- list_elem_of_In. simpl.
    by rewrite !Z.eqb_refl.
Qed.

Lemma get_tags_for_image_spec db image_id t :
  t ∈ Db.get_tags_for_image db image_id
  ↔ t ∈ Db.tags db ∧ (image_id, Db.tag_id t) ∈ Db.image_tags db.
Proof.
  unfold Db.get_tags_for_image. rewrite order_by_perm, elem_of_flat_map.
  split.
  - intros (t' & Ht' & H). apply elem_of_flat_map in H as ([a b] & Hit & H).
    simpl in H. destruct (Z.eqb_spec (Db.tag_id t') b) as [<-|];
      [|by apply elem_of_nil in H].
    destruct (Z.eqb_spec a image_id) as [->|]; [|by apply elem_of_nil in H].
    apply list_elem_of_singleton in H. by subst.
  - intros [Ht Hit]. exists t. split; [done|].
    apply elem_of_flat_map. exists (image_id, Db.tag_id t). split; [done|].
    simpl. rewrite !Z.eqb_refl. apply list_elem_of_here.
Qed.

(** X13: on a connection without foreign-key enforcement (every
    connection the class opens), linking a stored tag to an image id (an
    INTEGER) succeeds, the tag is then among the tags of the image, and
    linking again changes nothing (INSERT OR IGNORE). *)
Theorem link_tag_then_listed (db : Db.DatabaseManager) (image_id : Z)
  (tg : Db.tag) :
  int64 image_id → int64 (Db.tag_id tg) →
  Db.foreign_keys db = false → tg ∈ Db.tags db →
  (Db.link_tag_to_image db image_id (Db.tag_id tg)).1 = true
  ∧ tg ∈ Db.get_tags_for_image
           (Db.link_tag_to_image db image_id (Db.tag_id tg)).2 image_id
  ∧ Db.link_tag_to_image
      (Db.link_tag_to_image db image_id (Db.tag_id tg)).2 image_id (Db.tag_id tg)
    = (true, (Db.link_tag_to_image db image_id (Db.tag_id tg)).2).
Proof.
  intros _ _ Hfk Htg.
  assert (Hlink : ∀ db0, Db.foreign_keys db0 = false →
            (image_id, Db.tag_id tg) ∈ Db.image_tags db0 →
            Db.link_tag_to_image db0 image_id (Db.tag_id tg) = (true, db0)).
  { intros db0 H0 Hin. unfold Db.link_tag_to_image. rewrite H0. simpl.
    by rewrite (proj2 (existsb_link _ _ _) Hin). }
  assert (Hres : ∃ db', Db.link_tag_to_image db image_id (Db.tag_id tg)
                        = (true, db')
                        ∧ Db.foreign_keys db' = false
                        ∧ Db.tags db' = Db.tags db
                        ∧ (image_id, Db.tag_id tg) ∈ Db.image_tags db').
  { unfold Db.link_tag_to_image. rewrite Hfk. simpl.
    destruct (existsb _ (Db.image_tags db)) eqn:E.
    - apply existsb_link in E. by exists db.
    - eexists. split; [reflexivity|]. simpl. repeat split; try done.
      apply elem_of_app. right. apply list_elem_of_here. }
  destruct Hres as (db' & -> & Hfk' & Htags & Hin). simpl.
  split; [done|]. split; [|by apply Hlink].
  apply get_tags_for_image_spec. by rewrite Htags.
Qed.

Lemma link_tag_then_listed_witness :
  let db := (Db.add_tag one_tagged_image (lit "City")).2 in
  Db.mk_tag 2 (lit "City")
  ∈ Db.get_tags_for_image (Db.link_tag_to_image db 1 2).2 1.
Proof.
  intros db.
  refine (proj1 (proj2 (link_tag_then_listed db 1 (Db.mk_tag 2 (lit "City"))
                          _ _ _ _))).
  - unfold int64. lia.
  - unfold int64. simpl. lia.
  - reflexivity.
  - vm_compute. apply list_elem_of_further, list_elem_of_here.
Defined.

(** ** Deleting a tag, and listing after it *)

Lemma filter_removed_count {A} (f : A → Z) (x : Z) (l : list A) :
  (0 <? length l - length (List.filter (fun a => negb (Z.eqb (f a) x)) l))%nat
  = true ↔ x ∈ map f l.
Proof.
  rewrite Nat.ltb_lt.
  assert (Hle : ∀ k : list A,
    (length (List.filter (fun a => negb (Z.eqb (f a) x)) k) ≤ length k)%nat).
  { induction k as [|a k IH]; simpl; [lia|].
    destruct (negb _); simpl; lia. }
  induction l as [|a l IH]; simpl.
  - rewrite elem_of_nil. lia.
  - rewrite elem_of_cons. specialize (Hle l).
    destruct (Z.eqb_spec (f a) x) as [E | E]; simpl.
    + split; [by left | lia].
    + split.
      * intros H. right. apply IH. lia.
      * intros [? | H]; [congruence|]. apply IH in H. lia.
Qed.

Lemma not_elem_of_filter_neq {A} (f : A → Z) (x : Z) (l : list A) :
  x ∉ map f (List.filter (fun a => negb (Z.eqb (f a) x)) l).
Proof.
  intros H. apply list_elem_of_fmap in H as (a & -> & Ha).
  apply elem_of_filter_bool in Ha as [_ Ha]. by rewrite Z.eqb_refl in Ha.
Qed.

(** X14: for a tag id that is an INTEGER, [delete_tag] answers [True]
    exactly when a tag of that id is stored; afterwards no tag has the
    id, every other tag and every image is as before, and deleting again
    answers [False] and changes nothing. *)
Theorem delete_tag_removes_tag (db : Db.DatabaseManager) (tag_id : Z) :
  int64 tag_id →
  ((Db.delete_tag db tag_id).1 = true ↔ tag_id ∈ map Db.tag_id (Db.tags db))
  ∧ (tag_id ∉ map Db.tag_id (Db.tags (Db.delete_tag db tag_id).2))
  ∧ (∀ t, Db.tag_id t ≠ tag_id →
          (t ∈ Db.tags (Db.delete_tag db tag_id).2 ↔ t ∈ Db.tags db))
  ∧ Db.images (Db.delete_tag db tag_id).2 = Db.images db
  ∧ Db.delete_tag (Db.delete_tag db tag_id).2 tag_id
    = (false, (Db.delete_tag db tag_id).2).
Proof.
  intros _.
  split; [apply (filter_removed_count Db.tag_id)|].
  split; [apply (not_elem_of_filter_neq Db.tag_id)|].
  split.
  { intros t Ht. simpl. rewrite elem_of_filter_bool.
    destruct (Z.eqb_spec (Db.tag_id t) tag_id); [done|]. simpl. tauto. }
  split; [done|].
  assert (Hgone : tag_id ∉ map Db.tag_id (Db.tags (Db.delete_tag db tag_id).2))
    by apply (not_elem_of_filter_neq Db.tag_id).
  generalize dependent (Db.delete_tag db tag_id).2. intros db' Hgone.
  unfold Db.delete_tag.
  rewrite (filter_Z_neq_id Db.tag_id tag_id (Db.tags db')) by done.
  rewrite Nat.sub_diag. simpl. rewrite andb_false_r. by destruct db'.
Qed.

Lemma delete_tag_removes_tag_witness :
  (Db.delete_tag one_tagged_image 1).1 = true
  ∧ Db.delete_tag (Db.delete_tag one_tagged_image 1).2 1
    = (false, (Db.delete_tag one_tagged_image 1).2).
Proof.
  assert (H : int64 1) by (unfold int64; lia).
  destruct (delete_tag_removes_tag one_tagged_image 1 H)
    as (Hdel & _ & _ & _ & Hagain).
  split; [|exact Hagain].
  apply Hdel. vm_compute. apply list_elem_of_here.
Defined.

Lemma remove_dups_length_le (l : list str) :
  (length (remove_dups l) ≤ length l)%nat.
Proof.
  induction l as [|x l IH]; simpl; [lia|].
  destruct (decide_rel elem_of x l); simpl; lia.
Qed.

Lemma flat_map_nil {A B} (f : A → list B) (l : list A) :
  (∀ x, x ∈ l → f x = []) → flat_map f l = [].
Proof.
  induction l as [|x l IH]; intros H; simpl; [done|].
  rewrite (H x) by apply list_elem_of_here. simpl.
  apply IH. intros y Hy. apply H. by apply list_elem_of_further.
Qed.

(** A requested name that no stored tag carries empties the listing. *)
Lemma get_images_by_tags_no_such_tag db names n :
  db_wf db → n ∈ names → n ∉ map Db.name (Db.tags db) →
  Db.get_images_by_tags db names = [].
Proof.
  intros (_ & Hid & Hnm) Hn Hno.
  rewrite get_images_by_tags_nonempty
    by (intros ->; by apply elem_of_nil in Hn).
  apply flat_map_nil. intros g _. cbv zeta. fold (image_group db names g).
  assert (Hgrp : ∀ r, r ∈ image_group db names g →
            r.2 ∈ Db.tags db ∧ Db.name r.2 ∈ names).
  { intros [i t] Hr. unfold image_group in Hr.
    apply elem_of_filter_bool in Hr as [Hr _].
    apply joined_spec in Hr as (_ & Ht & _ & Hname). done. }
  rewrite (remove_dups_map_length (fun r => Db.tag_id r.2)
             (fun r => Db.name r.2)).
  2:{ intros x y Hx Hy. destruct (Hgrp x Hx) as [Htx _].
      destruct (Hgrp y Hy) as [Hty _]. split; intros E.
      - by rewrite (NoDup_map_inj Db.tag_id (Db.tags db) x.2 y.2).
      - by rewrite (NoDup_map_inj Db.name (Db.tags db) x.2 y.2). }
  set (ns := map (fun r : Db.image * Db.tag => Db.name r.2)
               (image_group db names g)).
  assert (Hlt : (length (remove_dups ns) < length names)%nat).
  { rewrite remove_dups_length_set.
    eapply Nat.lt_le_trans; [|apply (remove_dups_length_le names)].
    rewrite (remove_dups_length_set names). apply subset_size. split.
    - intros m Hm. apply elem_of_list_to_set in Hm.
      apply elem_of_list_to_set.
      apply list_elem_of_fmap in Hm as (r & -> & Hr).
      by destruct (Hgrp r Hr).
    - intros Hsub. specialize (Hsub n).
      rewrite !elem_of_list_to_set in Hsub. specialize (Hsub Hn).
      apply list_elem_of_fmap in Hsub as (r & -> & Hr).
      apply Hno. destruct (Hgrp r Hr) as [Ht _].
      by apply (list_elem_of_fmap_2 Db.name). }
  destruct (Nat.eqb_spec (length (remove_dups ns)) (length names)); [lia|done].
Qed.

(** X15: a listing that requests a name no stored tag carries returns no
    image, whatever else is requested. *)
Theorem get_images_by_tags_unknown_name (db : Db.DatabaseManager)
  (tag_names : list str) (n : str) :
  db_wf db → n ∈ tag_names → n ∉ map Db.name (Db.tags db) →
  Db.get_images_by_tags db tag_names = [].
Proof. apply get_images_by_tags_no_such_tag. Qed.

Lemma one_tagged_image_wf : db_wf one_tagged_image.
Proof. repeat split; apply (bool_decide_unpack _); by vm_compute. Qed.

Lemma get_images_by_tags_unknown_name_witness :
  Db.get_images_by_tags one_tagged_image [lit "New York"; lit "Tokyo"] = [].
Proof.
  apply (get_images_by_tags_unknown_name one_tagged_image
           [lit "New York"; lit "Tokyo"] (lit "Tokyo")).
  - exact one_tagged_image_wf.
  - apply list_elem_of_further, list_elem_of_here.
  - apply (bool_decide_unpack _). by vm_compute.
Defined.

(** X16: after [delete_tag] of a stored tag, every listing that requests
    the name of that tag returns no image. *)
Theorem listing_after_delete_tag (db : Db.DatabaseManager) (tg : Db.tag)
  (tag_names : list str) :
  db_wf db → tg ∈ Db.tags db → Db.name tg ∈ tag_names →
  Db.get_images_by_tags (Db.delete_tag db (Db.tag_id tg)).2 tag_names = [].
Proof.
  intros Hwf Htg Hn.
  apply (get_images_by_tags_no_such_tag _ _ (Db.name tg));
    [by apply db_wf_delete_tag | done |].
  simpl. intros Hin. apply list_elem_of_fmap in Hin as (t & E & Ht).
  apply elem_of_filter_bool in Ht as [Ht Hne].
  destruct Hwf as (_ & _ & Hnm).
  assert (t = tg) as -> by by apply (NoDup_map_inj Db.name (Db.tags db)).
  by rewrite Z.eqb_refl in Hne.
Qed.

Lemma listing_after_delete_tag_witness :
  Db.get_images_by_tags (Db.delete_tag one_tagged_image 1).2 [lit "New York"]
  = [].
Proof.
  apply (listing_after_delete_tag one_tagged_image
           (Db.mk_tag 1 (lit "New York")) [lit "New York"]).
  - exact one_tagged_image_wf.
  - apply list_elem_of_here.
  - apply list_elem_of_here.
Defined.

(** ** Date bounds *)

Lemma str_leb_prefix d s : str_leb d (d ++ s) = true.
Proof.
  induction d as [|x d IH]; simpl; [done|].
  by rewrite N.eqb_refl, IH, orb_true_r.
Qed.

Lemma str_leb_extension d s : s ≠ [] → str_leb (d ++ s) d = false.
Proof.
  intros Hs. induction d as [|x d IH]; simpl.
  - by destruct s.
  - by rewrite N.ltb_irrefl, N.eqb_refl, IH.
Qed.

Lemma truthy_nonempty {A} (l : list A) : l ≠ [] → truthy (Some l) = Some l.
Proof. by destruct l. Qed.

(** X17: date bounds compare as text: a stored timestamp that extends
    the bound (a bound of the form YYYY-MM-DD against a stored
    YYYY-MM-DD HH:MM:SS) passes it as a start date and fails it as an end
    date, in both stores. *)
Theorem date_bound_prefix (db : Db.DatabaseManager) (i : Db.image)
  (t : Api.table) (r : Api.row) (d s : str) :
  d ≠ [] → s ≠ [] →
  i ∈ Db.images db → Db.capture_date i = Some (d ++ s) →
  r ∈ t → Api.row_date_taken r = Some (d ++ s) →
  i ∈ Db.get_images_by_metadata db (Some d) None None
  ∧ (i ∉ Db.get_images_by_metadata db None (Some d) None)
  ∧ r ∈ select_where Api.value
          (Api.build_query (Api.mk_PhotoFilter (Some d) None None None None)) t
  ∧ (r ∉ select_where Api.value
           (Api.build_query (Api.mk_PhotoFilter None (Some d) None None None))
           t).
Proof.
  intros Hd Hs Hi Hcap Hr Hdate.
  unfold Db.get_images_by_metadata, Db.build_query, Api.build_query.
  cbn [Api.date_from Api.date_to Api.filter_location Api.filter_camera_model
       Api.filter_tags].
  rewrite !(truthy_nonempty d Hd). cbn [truthy app].
  rewrite !fetchall_within
    by (split; [by vm_compute | by repeat constructor]).
  unfold select_where.
  rewrite !elem_of_filter_bool.
  cbn [truthy app forallb eval_clause Db.value Api.value].
  rewrite Hcap, Hdate, (str_leb_prefix d s), (str_leb_extension d s Hs).
  repeat split; try done; intros [_ H]; discriminate.
Qed.

Lemma date_bound_prefix_witness :
  let i := Db.mk_image 1 (lit "/path/to/img1.jpg")
             (Some (lit "2023-01-15 10:00:00")) (Some (lit "Canon EOS R5"))
             None None in
  let r := Api.mk_row 1 (lit "beach.jpg") (lit "beach.jpg")
             (Some (lit "2023-01-15 10:00:00")) None None None in
  (i ∉ Db.get_images_by_metadata one_tagged_image None
         (Some (lit "2023-01-15")) None)
  ∧ (r ∉ select_where Api.value
           (Api.build_query
              (Api.mk_PhotoFilter None (Some (lit "2023-01-15")) None None None))
           [r]).
Proof.
  intros i r.
  assert (H : i ∈ Db.get_images_by_metadata one_tagged_image
                    (Some (lit "2023-01-15")) None None
              ∧ (i ∉ Db.get_images_by_metadata one_tagged_image None
                       (Some (lit "2023-01-15")) None)
              ∧ r ∈ select_where Api.value
                      (Api.build_query
                         (Api.mk_PhotoFilter (Some (lit "2023-01-15")) None
                            None None None)) [r]
              ∧ (r ∉ select_where Api.value
                       (Api.build_query
                          (Api.mk_PhotoFilter None (Some (lit "2023-01-15"))
                             None None None)) [r])).
  { apply (date_bound_prefix one_tagged_image i [r] r (lit "2023-01-15")
             (lit " 10:00:00")).
    - discriminate.
    - discriminate.
    - apply list_elem_of_here.
    - reflexivity.
    - apply list_elem_of_here.
    - reflexivity. }
  destruct H as (_ & H1 & _ & H2). exact (conj H1 H2).
Defined.

(** ** Every state the class reaches *)

Lemma run_call_foreign_keys db c :
  Db.foreign_keys (run_call db c) = Db.foreign_keys db.
Proof.
  destruct c as [f d m la lo | n | i t | t]; simpl.
  - unfold Db.add_image. by destruct (existsb _ _).
  - unfold Db.add_tag. by destruct (List.find _ _).
  - unfold Db.link_tag_to_image. destruct (_ && _); [done|].
    by destruct (existsb _ _).
  - done.
Qed.

Lemma run_call_wf db c : db_wf db → db_wf (run_call db c).
Proof.
  destruct c as [f d m la lo | n | i t | t]; simpl.
  - apply db_wf_add_image.
  - apply db_wf_add_tag.
  - apply db_wf_link_tag_to_image.
  - apply db_wf_delete_tag.
Qed.

(** X18: whatever sequence of [add_image], [add_tag],
    [link_tag_to_image] and [delete_tag] calls is made on a manager, the
    image ids, the tag ids and the tag names stay pairwise distinct, and a
    connection without foreign-key enforcement stays so. *)
Theorem run_calls_keeps_constraints (db : Db.DatabaseManager) (cs : list call) :
  db_wf db → Db.foreign_keys db = false →
  db_wf (run_calls db cs) ∧ Db.foreign_keys (run_calls db cs) = false.
Proof.
  unfold run_calls. revert db.
  induction cs as [|c cs IH]; intros db Hwf Hfk; simpl; [done|].
  apply IH; [by apply run_call_wf | by rewrite run_call_foreign_keys].
Qed.

Lemma run_calls_keeps_constraints_witness :
  let cs := [call_add_image (lit "/a.jpg") (lit "2023-01-15") None None None;
             call_add_tag (lit "City"); call_add_tag (lit "City");
             call_link_tag_to_image 1 1; call_delete_tag 1;
             call_add_tag (lit "Nature")] in
  db_wf (run_calls (Db.init None) cs)
  ∧ Db.foreign_keys (run_calls (Db.init None) cs) = false.
Proof.
  intros cs. apply (run_calls_keeps_constraints (Db.init None) cs).
  - exact db_wf_init.
  - reflexivity.
Defined.

(* ===================================================================== *)
(** * Further properties of the search placeholder *)
(* ===================================================================== *)

Lemma search_as_filter (lower : str → str) query l :
  Processing.semantic_search_placeholder lower query l
  = map Processing.path
      (List.filter (fun m =>
         Processing.found_in_tags lower (lower query)
           (default [] (Processing.tags m))
         || Processing.found_in_ocr lower (lower query)
              (default [] (Processing.ocr_text m))) l).
Proof.
  unfold Processing.semantic_search_placeholder. by rewrite search_loop_acc.
Qed.

Lemma filter_all {A} (f : A → bool) (l : list A) :
  (∀ x, x ∈ l → f x = true) → List.filter f l = l.
Proof.
  induction l as [|x l IH]; intros H; simpl; [done|].
  rewrite (H x) by apply list_elem_of_here. f_equal.
  apply IH. intros y Hy. apply H. by apply list_elem_of_further.
Qed.

(** X19: a query whose lowercased form is empty matches every record:
    the search returns every path, in order (the empty string is a
    substring of any text). *)
Theorem search_empty_query (lower : str → str) (query : str)
  (image_metadata_list : list Processing.metadata) :
  lower query = [] →
  Processing.semantic_search_placeholder lower query image_metadata_list
  = map Processing.path image_metadata_list.
Proof.
  intros Hq. rewrite search_as_filter, Hq. f_equal. apply filter_all.
  intros m _. apply orb_true_iff. right.
  unfold Processing.found_in_ocr.
  destruct (lower (default [] (Processing.ocr_text m))); reflexivity.
Qed.

Lemma search_empty_query_witness :
  Processing.semantic_search_placeholder ascii_lower []
    [Processing.mk_metadata (Some (lit "a.jpg")) None None;
     Processing.mk_metadata None (Some [lit "cat"]) (Some (lit "text"))]
  = [Some (lit "a.jpg"); None].
Proof.
  apply (search_empty_query ascii_lower []
           [Processing.mk_metadata (Some (lit "a.jpg")) None None;
            Processing.mk_metadata None (Some [lit "cat"]) (Some (lit "text"))]).
  reflexivity.
Defined.

(** X20: the search treats each record on its own: the result for two
    lists one after the other is the two results one after the other, and
    no result is longer than its input. *)
Theorem search_app (lower : str → str) (query : str)
  (l1 l2 : list Processing.metadata) :
  Processing.semantic_search_placeholder lower query (l1 ++ l2)
  = Processing.semantic_search_placeholder lower query l1
    ++ Processing.semantic_search_placeholder lower query l2
  ∧ (length (Processing.semantic_search_placeholder lower query l1)
     ≤ length l1)%nat.
Proof.
  rewrite !search_as_filter. split.
  - by rewrite List.filter_app, map_app.
  - rewrite length_map. apply List.filter_length_le.
Qed.

(** X21: a record with neither ['tags'] nor ['ocr_text'] is matched by
    no query whose lowercased form is non-empty (given that lowercasing
    the empty string gives the empty string). *)
Theorem search_record_without_keys (lower : str → str) (query : str)
  (image_metadata_list : list Processing.metadata) :
  lower [] = [] → lower query ≠ [] →
  Forall (fun m => Processing.tags m = None ∧ Processing.ocr_text m = None)
    image_metadata_list →
  Processing.semantic_search_placeholder lower query image_metadata_list = [].
Proof.
  intros Hnil Hq Hl. rewrite search_as_filter, filter_none; [done|].
  intros m Hm. eapply Forall_forall in Hm; [|exact Hl].
  destruct Hm as [-> ->]. simpl. apply orb_false_iff. split.
  - unfold Processing.found_in_tags.
    induction (split (lower query)) as [|w ws IH]; [done | by simpl].
  - unfold Processing.found_in_ocr. rewrite Hnil. simpl.
    destruct (lower query); [done | by simpl].
Qed.

Lemma search_record_without_keys_witness :
  Processing.semantic_search_placeholder ascii_lower (lit "Cat")
    [Processing.mk_metadata (Some (lit "a.jpg")) None None] = [].
Proof.
  apply (search_record_without_keys ascii_lower (lit "Cat")).
  - reflexivity.
  - discriminate.
  - by repeat constructor.
Defined.
